(** * Shape analysis along the spinal cord centerline (scripts/msct_shape.py)

    A shallow embedding of [properties2d], [assign_AP_and_RL_diameter] and
    [compute_properties_along_centerline], and the properties of the shape
    pipeline proved about them.

    Conventions of the embedding:
    - Python and numpy floating point numbers are idealised as rationals,
      extended with one element [NaN] that stands for every non-finite
      result (nan, inf) of a numpy division;
    - the script is Python 2 code: [/] between two integers is floor division;
    - Python exceptions are values of [exn]; code that can raise returns a
      [result];
    - dictionaries are [gmap]s keyed by strings; the dictionary returned by
      [properties2d] is a heap object, so that the in-place update done by
      [assign_AP_and_RL_diameter] is visible;
    - skimage, scipy, numpy and math are not part of the repository: an image
      carries the regions [measure.regionprops] returns for it; [np.argsort],
      [math.cos], [math.sin], the coefficients of the Hann window and the
      calls to matplotlib are parameters of the development; [np.mgrid],
      [map_coordinates],
      [scipy.signal.hann] (its number of samples) and [scipy.signal.convolve]
      are modelled after the libraries. *)

From Stdlib Require Import QArith Qround Lqa.
From stdpp Require Import gmap strings list sorting.

(** ** Numbers *)

Inductive float := Finite (q : Q) | NaN.

Definition float_add (x y : float) : float :=
  match x, y with
  | Finite a, Finite b => Finite (a + b)
  | _, _ => NaN
  end.

Definition float_mul (x y : float) : float :=
  match x, y with
  | Finite a, Finite b => Finite (a * b)
  | _, _ => NaN
  end.

(** numpy division: a zero divisor yields nan or inf and a warning, never an
    exception. *)
Definition np_div (x y : float) : float :=
  match x, y with
  | Finite a, Finite b => if Qeq_bool b 0 then NaN else Finite (a / b)
  | _, _ => NaN
  end.

Definition Qltb (x y : Q) : bool := negb (Qle_bool y x).

(** [int(x)] on a float: truncation towards zero. *)
Definition py_int (x : Q) : Z := Z.quot (Qnum x) (Z.pos (Qden x)).

(** [math.pi], the double nearest to pi, is this rational. *)
Definition math_pi : Q := 884279719003555 # 281474976710656.

(** ** Exceptions *)

Inductive exn :=
  TypeError | KeyError | IndexError | ZeroDivisionError | ValueError | RuntimeError.

#[global] Instance exn_eq_dec : EqDecision exn.
Proof. solve_decision. Defined.

Inductive result (A : Type) := Ok (a : A) | Raise (e : exn).
Arguments Ok {A} a.
Arguments Raise {A} e.

#[global] Instance result_ret : MRet result := fun A a => Ok a.
#[global] Instance result_bind : MBind result := fun A B f m =>
  match m with
  | Ok a => f a
  | Raise e => Raise e
  end.

(** [try: body except e: handler] *)
Definition try_except {A} (body : result A) (e : exn) (handler : result A) : result A :=
  match body with
  | Ok a => Ok a
  | Raise e' => if decide (e' = e) then handler else Raise e'
  end.

(** Division of two Python floats. *)
Definition py_div (x y : Q) : result Q :=
  if Qeq_bool y 0 then Raise ZeroDivisionError else Ok (x / y)%Q.

(** [l[i]] and [l[-1]] on a Python list. *)
Definition list_get {A} (l : list A) (i : nat) : result A :=
  match l !! i with
  | Some a => Ok a
  | None => Raise IndexError
  end.

Definition list_last {A} (l : list A) : result A :=
  match last l with
  | Some a => Ok a
  | None => Raise IndexError
  end.

(** ** Values, dictionaries and the heap *)

Inductive value :=
  | VFloat (x : float)
  | VInt (n : Z)
  | VTuple (t : list Q)
  | VArray (a : list (list Q)).

Definition as_float (v : value) : result float :=
  match v with
  | VFloat x => Ok x
  | VInt n => Ok (Finite (inject_Z n))
  | _ => Raise TypeError
  end.

Abbreviation dict := (gmap string value).
Abbreviation loc := positive.
Abbreviation heap := (gmap loc dict).

(** A Python reference: [None] or a dictionary object of the heap. *)
Inductive pyobj := PyNone | PyDict (l : loc).

(** [obj[key]] *)
Definition getitem (obj : pyobj) (key : string) (h : heap) : result value :=
  match obj with
  | PyNone => Raise TypeError
  | PyDict l =>
      match h !! l with
      | Some d =>
          match d !! key with
          | Some v => Ok v
          | None => Raise KeyError
          end
      | None => Raise TypeError
      end
  end.

(** [obj[key] = v] *)
Definition setitem (obj : pyobj) (key : string) (v : value) (h : heap) : result heap :=
  match obj with
  | PyNone => Raise TypeError
  | PyDict l =>
      match h !! l with
      | Some d => Ok (<[l := <[key := v]> d]> h)
      | None => Raise TypeError
      end
  end.

(** A dictionary display [{...}] creates a new object. *)
Definition new_dict (d : dict) (h : heap) : pyobj * heap :=
  let l := fresh (dom h) in (PyDict l, <[l := d]> h).

(** [a < v < b] for float literals [a], [b]; a comparison with nan is false.
    The value read is a number for every dictionary [properties2d] builds;
    anything else is reported as [TypeError]. *)
Definition chained_lt (a : Q) (v : value) (b : Q) : result bool :=
  x ← as_float v;
  match x with
  | Finite q => Ok (Qltb a q && Qltb q b)
  | NaN => Ok false
  end.

(** ** What skimage and scipy return for a patch *)

Module sk.
(** The attributes of a [skimage.measure] region that [properties2d] reads. *)
Record region := {
  area : Z;
  bbox : list Z;
  centroid : Q * Q;
  eccentricity : Q;
  equivalent_diameter : Q;
  euler_number : Z;
  inertia_tensor : list (list Q);
  inertia_tensor_eigvals : list Q;
  minor_axis_length : Q;
  major_axis_length : Q;
  moments : list (list Q);
  moments_central : list (list Q);
  orientation : Q;
  perimeter : Q;
  solidity : Q
}.
End sk.

(** A 2D patch: its array of pixels, and what
    [measure.regionprops(measure.label(np.transpose(image)))] returns for it
    (skimage is not part of the repository). *)
Record Image := {
  pixels : list (list Q);
  regionprops : list sk.region
}.

(** The pixel nearest to a coordinate, 0 for a coordinate outside of the
    array: interpolation of order 0 with [mode='constant', cval=0.0]. *)
Definition nearest (image : Image) (c : Q * Q) : Q :=
  let '(x, y) := c in
  let n0 := Z.of_nat (length (pixels image)) in
  let n1 := Z.of_nat (length (nth 0 (pixels image) [])) in
  if Qle_bool 0 x && Qle_bool x (inject_Z (n0 - 1))
     && Qle_bool 0 y && Qle_bool y (inject_Z (n1 - 1))
  then nth (Z.to_nat (Qfloor (y + (1 # 2))))
           (nth (Z.to_nat (Qfloor (x + (1 # 2)))) (pixels image) []) 0%Q
  else 0%Q.

(** [map_coordinates(image, coords.T, output=np.float32, order=0,
    mode='constant', cval=0.0)]; an empty array of coordinates does not have
    the shape the function asks for. The single precision of the output
    keeps the values of a mask (0, 1 and the other small integers) as they
    are; its rounding of other values is not part of the embedding. *)
Definition map_coordinates (image : Image) (coords : list (Q * Q)) : result (list Q) :=
  match coords with
  | [] => Raise RuntimeError
  | _ => Ok (nearest image <$> coords)
  end.

(** ** [properties2d] *)

Definition Qsum (l : list Q) : Q := foldr Qplus 0%Q l.

(** [np.sum] of a 2D array. *)
Definition np_sum2 (a : list (list Q)) : Q := Qsum (concat a).

(** [a[mask == 1]] on flattened arrays: the entries of [a] at the positions
    where [mask] equals 1, in traversal order. *)
Fixpoint select_eq1 (a mask : list Q) : list Q :=
  match a, mask with
  | x :: a', m :: mask' =>
      if Qeq_bool m 1 then x :: select_eq1 a' mask' else select_eq1 a' mask'
  | _, _ => []
  end.

(** Boolean-mask indexing of a 2D array: the shapes must agree. *)
Definition mask_eq1 (a mask : list (list Q)) : result (list Q) :=
  if bool_decide (length <$> a = length <$> mask)
  then Ok (select_eq1 (concat a) (concat mask))
  else Raise IndexError.

(** [np.mgrid[-size_grid:size_grid:step]] along one axis:
    [ceil(2 * size_grid / step)] values from [-size_grid] on. *)
Definition mgrid_axis (size_grid step : Q) : list Q :=
  (fun k => - size_grid + inject_Z (Z.of_nat k) * step)%Q
    <$> seq 0 (Z.to_nat (Qceiling ((size_grid - - size_grid) / step))).

(** [zip(x_grid.ravel(), y_grid.ravel())]: the first coordinate varies with
    the row of the grid, the second with its column. *)
Definition coordinates_grid (axis : list Q) : list (Q * Q) :=
  concat ((fun gx => (fun gy => (gx, gy)) <$> axis) <$> axis).

Fixpoint chunks (rows n : nat) (l : list Q) : list (list Q) :=
  match rows with
  | O => []
  | S rows' => take n l :: chunks rows' n (drop n l)
  end.

(** [square.reshape((n, n))] *)
Definition reshape (n : nat) (square : list Q) : result (list (list Q)) :=
  if decide (length square = (n * n)%nat) then Ok (chunks n n square)
  else Raise ValueError.

(** Lines 84-88: the two halves of the resampled square and their overlap.
    [square_image] has [len(x_grid)] rows and as many columns, so that
    [square_image.shape[1]] is its number of rows. *)
Definition size_half (square_image : list (list Q)) : nat :=
  (length square_image / 2)%nat.

(** [square_image[:, :size_half]] *)
Definition left_image (square_image : list (list Q)) : list (list Q) :=
  take (size_half square_image) <$> square_image.

(** [np.fliplr(square_image[:, size_half:])] *)
Definition right_image (square_image : list (list Q)) : list (list Q) :=
  (fun row => reverse (drop (size_half square_image) row)) <$> square_image.

Definition dice_symmetry (square_image : list (list Q)) : result float :=
  sel ← mask_eq1 (left_image square_image) (right_image square_image);
  mret (np_div (Finite (Qsum sel * 2))
               (Finite (np_sum2 (left_image square_image)
                        + np_sum2 (right_image square_image)))).

(** Lines 51-64: the quantities scaled by the resolution, and [size_grid]. *)
Definition scaled (resolution : option (Q * Q)) (sc_region : sk.region)
  : result (value * Q * Q * Q * Q) :=
  let area := sk.area sc_region in
  let diameter := sk.equivalent_diameter sc_region in
  let major_l := sk.major_axis_length sc_region in
  let minor_l := sk.minor_axis_length sc_region in
  match resolution with
  | Some (r0, r1) =>
      size_grid ← py_div 8 r0;
      mret (VFloat (Finite (inject_Z area * (r0 * r1))),
            diameter * r0, major_l * r0, minor_l * r0, size_grid)%Q
  | None =>
      mret (VInt area, diameter, major_l, minor_l,
            inject_Z (py_int ((24 # 10) * sk.major_axis_length sc_region)))
  end.

(** ** The centerline and the series *)

(** What the centerline object and the image provide at one index:
    the perpendicular patch, [incremental_length[index]], [dist_points[index]],
    [l_points[index]] and the z coordinate of
    [image.transfo_phys2pix([centerline.points[index]])[0]]. *)
Record Point := {
  patch : Image;
  incremental_length : Q;
  dist_points : Q;
  l_points : Z;
  z_pix : Z
}.

Record Centerline := {
  points : list Point;
  progressive_length : list Q
}.

Definition property_list : list string :=
  [ "area"; "equivalent_diameter"; "AP_diameter"; "RL_diameter";
    "ratio_minor_major"; "eccentricity"; "solidity"; "orientation"; "symmetry" ].

(** The dictionary [properties] of lists. *)
Abbreviation series := (gmap string (list value)).

(** [properties[key]] *)
Definition series_get (properties : series) (key : string) : result (list value) :=
  match properties !! key with
  | Some l => Ok l
  | None => Raise KeyError
  end.

(** [properties[key].append(v)] *)
Definition series_append (properties : series) (key : string) (v : value)
  : result series :=
  l ← series_get properties key;
  mret (<[key := l ++ [v]]> properties).

(** A [for] loop whose body can raise, threading the state it updates. *)
Fixpoint for_each {A S} (l : list A) (body : A -> S -> result S) (s : S) : result S :=
  match l with
  | [] => Ok s
  | a :: l' => s' ← body a s; for_each l' body s'
  end.

(** [==] on the numbers stored in the series (only numbers are compared). *)
Definition py_eq (a b : value) : bool :=
  match a, b with
  | VInt m, VInt n => (m =? n)%Z
  | VInt m, VFloat (Finite y) => Qeq_bool (inject_Z m) y
  | VFloat (Finite x), VInt n => Qeq_bool x (inject_Z n)
  | VFloat (Finite x), VFloat (Finite y) => Qeq_bool x y
  | _, _ => false
  end.

(** [label in l] *)
Definition py_in (label : value) (l : list value) : bool := existsb (py_eq label) l.

Definition float_sum (l : list float) : float := foldr float_add (Finite 0) l.

(** [np.mean] of a list of numbers; nan (and a warning) on the empty list. *)
Definition np_mean (l : list value) : result float :=
  xs ← mapM as_float l;
  mret (match xs with
        | [] => NaN
        | _ => np_div (float_sum xs) (Finite (inject_Z (Z.of_nat (length xs))))
        end).

Definition np_mean_Q (l : list Q) : float :=
  match l with
  | [] => NaN
  | _ => Finite (Qsum l / inject_Z (Z.of_nat (length l)))
  end.

(** ** scipy.signal *)

(** Number of samples of [scipy.signal.hann(M)] for a float [M]: none below 1,
    otherwise the length of [np.arange(0, M)]. *)
Definition hann_length (M : float) : result nat :=
  match M with
  | NaN => Raise ValueError
  | Finite m => if Qltb m 1 then Ok 0%nat else Ok (Z.to_nat (Qceiling m))
  end.

Fixpoint float_zip_add (a b : list float) : list float :=
  match a, b with
  | x :: a', y :: b' => float_add x y :: float_zip_add a' b'
  | [], _ => b
  | _, [] => a
  end.

(** The full discrete convolution, [len(a) + len(w) - 1] samples. *)
Fixpoint convolve_full (a : list float) (w : list Q) : list float :=
  match a with
  | [] => []
  | x :: a' =>
      float_zip_add ((fun c => float_mul x (Finite c)) <$> w)
                    (Finite 0 :: convolve_full a' w)
  end.

(** [scipy.signal.convolve(a, w, mode='same')]: the full convolution cut to
    the size of [a], centered; an empty window is refused. *)
Definition convolve_same (a : list float) (w : list Q) : result (list float) :=
  match w with
  | [] => Raise ValueError
  | _ => Ok (take (length a) (drop ((length w - 1) / 2)%nat (convolve_full a w)))
  end.

(** ** The returned [OrderedDict] *)

Abbreviation odict := (list (string * list float)).

(** [od[k] = v]: a new key goes last, an existing key keeps its place. *)
Fixpoint od_set (od : odict) (k : string) (v : list float) : odict :=
  match od with
  | [] => [(k, v)]
  | (k', v') :: od' =>
      if decide (k' = k) then (k, v) :: od' else (k', v') :: od_set od' k v
  end.

(** [od[k].append(x)] *)
Fixpoint od_append (od : odict) (k : string) (x : float) : result odict :=
  match od with
  | [] => Raise KeyError
  | (k', v') :: od' =>
      if decide (k' = k) then Ok ((k', v' ++ [x]) :: od')
      else od'' ← od_append od' k x; mret ((k', v') :: od'')
  end.

(** [od[k]] *)
Fixpoint od_get (od : odict) (k : string) : option (list float) :=
  match od with
  | [] => None
  | (k', v') :: od' => if decide (k' = k) then Some v' else od_get od' k
  end.

Section Pipeline.

(** [np.argsort] on a list of integers. *)
Variable np_argsort : list Z -> list nat.

(** [math.cos] and [math.sin]. *)
Variable math_cos math_sin : Q -> Q.

(** Sample [k] of the symmetric Hann window of [n] points. *)
Variable hann_coeff : nat -> nat -> Q.

(** Lines 42-45: the region kept by [properties2d]. *)
Definition sc_region_of (regions : list sk.region) : result sk.region :=
  let areas := sk.area <$> regions in
  let ix := np_argsort areas in
  i ← list_last ix;
  list_get regions i.

(** Lines 46-49. *)
Definition ratio_minor_major (sc_region : sk.region) : result Q :=
  try_except
    (py_div (sk.minor_axis_length sc_region) (sk.major_axis_length sc_region))
    ZeroDivisionError
    (Ok 0%Q).

(** Lines 76-82: the square grid around the centroid and the patch sampled
    on it. *)
Definition resampled_square (image : Image) (x0 y0 orientation size_grid : Q)
  : result (list (list Q)) :=
  let resolution_grid : Q := 25 # 100 in
  let x_grid := mgrid_axis size_grid resolution_grid in
  let coordinates_grid_image :=
    (fun '(gx, gy) => (x0 + math_cos orientation * gx,
                       y0 - math_sin orientation * gy)%Q)
      <$> coordinates_grid x_grid in
  square ← map_coordinates image coordinates_grid_image;
  reshape (length x_grid) square.

Definition properties2d (image : Image) (resolution : option (Q * Q)) (h : heap)
  : result (pyobj * heap) :=
  let regions := regionprops image in
  if bool_decide (length regions ≠ 0%nat) then
    sc_region ← sc_region_of regions;
    ratio ← ratio_minor_major sc_region;
    '(area, diameter, major_l, minor_l, size_grid) ← scaled resolution sc_region;
    let '(y0, x0) := sk.centroid sc_region in
    square_image ← resampled_square image x0 y0 (sk.orientation sc_region) size_grid;
    dice ← dice_symmetry square_image;
    let sc_properties : dict := list_to_map
      [ ("area", area);
        ("bbox", VTuple (inject_Z <$> sk.bbox sc_region));
        ("centroid", VTuple [y0; x0]);
        ("eccentricity", VFloat (Finite (sk.eccentricity sc_region)));
        ("equivalent_diameter", VFloat (Finite diameter));
        ("euler_number", VInt (sk.euler_number sc_region));
        ("inertia_tensor", VArray (sk.inertia_tensor sc_region));
        ("inertia_tensor_eigvals", VTuple (sk.inertia_tensor_eigvals sc_region));
        ("minor_axis_length", VFloat (Finite minor_l));
        ("major_axis_length", VFloat (Finite major_l));
        ("moments", VArray (sk.moments sc_region));
        ("moments_central", VArray (sk.moments_central sc_region));
        ("orientation", VFloat (Finite (sk.orientation sc_region * 180 / math_pi)));
        ("perimeter", VFloat (Finite (sk.perimeter sc_region)));
        ("ratio_minor_major", VFloat (Finite ratio));
        ("solidity", VFloat (Finite (sk.solidity sc_region)));
        ("symmetry", VFloat dice) ] in
    mret (new_dict sc_properties h)
  else
    mret (PyNone, h).

(** ** [assign_AP_and_RL_diameter] *)

Definition assign_AP_and_RL_diameter (properties : pyobj) (h : heap)
  : result (pyobj * heap) :=
  o ← getitem properties "orientation" h;
  c ← chained_lt (-45) o 45;
  if (c : bool) then
    v ← getitem properties "major_axis_length" h;
    h ← setitem properties "RL_diameter" v h;
    v ← getitem properties "minor_axis_length" h;
    h ← setitem properties "AP_diameter" v h;
    mret (properties, h)
  else
    v ← getitem properties "minor_axis_length" h;
    h ← setitem properties "RL_diameter" v h;
    v ← getitem properties "major_axis_length" h;
    h ← setitem properties "AP_diameter" v h;
    mret (properties, h).

(** ** [compute_properties_along_centerline] *)

Definition resolution : Q := 1 # 2.

(** Lines 182-186. *)
Definition init_properties : series :=
  <["z_slice" := []]> (<["vertebral_level" := []]> (<["distance_from_C1" := []]>
    (<["incremental_length" := []]> (list_to_map ((fun key => (key, [])) <$> property_list))))).

(** The state of the sampling loop: the series, the heap and the printed
    warnings (the voxel z coordinate each one names). *)
Definition loop_state : Type := series * heap * list Z.

(** Lines 221-253, one iteration. With [value_out = 0.0] line 229 leaves
    the patch as it is. *)
Definition loop_body (fname_discs : bool) (pt : Point) (st : loop_state)
  : result loop_state :=
  let '(properties, h, out) := st in
  let patch_zero := patch pt in
  '(sc_properties, h) ← properties2d patch_zero (Some (resolution, resolution)) h;
  '(sc_properties, h) ← assign_AP_and_RL_diameter sc_properties h;
  match sc_properties with
  | PyDict _ =>
      properties ← series_append properties "incremental_length"
                     (VFloat (Finite (incremental_length pt)));
      properties ←
        (if fname_discs then
           properties ← series_append properties "distance_from_C1"
                          (VFloat (Finite (dist_points pt)));
           series_append properties "vertebral_level" (VInt (l_points pt))
         else mret properties);
      properties ← series_append properties "z_slice" (VInt (z_pix pt));
      properties ←
        for_each property_list
          (fun property_name properties =>
             v ← getitem sc_properties property_name h;
             series_append properties property_name v)
          properties;
      mret (properties, h, out)
  | PyNone =>
      mret (properties, h, out ++ [z_pix pt])
  end.

(** [scipy.signal.hann(M)] *)
Definition hann (M : float) : result (list Q) :=
  n ← hann_length M;
  mret (hann_coeff n <$> seq 0 n).

(** The length in samples of the window of line 267. *)
Definition window_length (smooth_factor : Q) (centerline : Centerline) : result nat :=
  hann_length (np_div (Finite smooth_factor)
                      (np_mean_Q (progressive_length centerline))).

(** The right-hand side of line 269:
    [scipy.signal.convolve(vs, window, mode='same') / np.sum(window)]. *)
Definition smooth_values (window : list Q) (vs : list value) : result (list value) :=
  xs ← mapM as_float vs;
  c ← convolve_same xs window;
  mret (fmap (M:=list) (fun x => VFloat (np_div x (Finite (Qsum window)))) c).

(** Lines 265-269. *)
Definition smooth (properties : series) (smooth_factor : Q) (centerline : Centerline)
  : result series :=
  if negb (Qeq_bool smooth_factor 0) then
    window ← hann (np_div (Finite smooth_factor)
                          (np_mean_Q (progressive_length centerline)));
    for_each property_list
      (fun property_name properties =>
         vs ← series_get properties property_name;
         vs' ← smooth_values window vs;
         mret (<[property_name := vs']> properties))
      properties
  else mret properties.

(** Lines 295-298. *)
Definition sorting_values_of (z_slice : list value) : list value :=
  foldl (fun sorting_values label =>
           if negb (py_in label sorting_values)
           then sorting_values ++ [label] else sorting_values)
        [] z_slice.

(** The list comprehension of lines 305-306. *)
Fixpoint items_of_label (enumerated : list (nat * value)) (z_slice : list value)
    (label : value) : result (list value) :=
  match enumerated with
  | [] => Ok []
  | (i, item) :: rest =>
      z ← list_get z_slice i;
      items ← items_of_label rest z_slice label;
      mret (if py_eq z label then item :: items else items)
  end.

Definition enumerate {A} (l : list A) : list (nat * A) := zip (seq 0 (length l)) l.

(** The argument of [append] on lines 304-306. *)
Definition mean_of_label (properties : series) (property_name : string)
    (label : value) : result float :=
  vs ← series_get properties property_name;
  z_slice ← series_get properties "z_slice";
  items ← items_of_label (enumerate vs) z_slice label;
  np_mean items.

(** Lines 300-306. *)
Definition average (properties : series) (sorting_values : list value) : result odict :=
  for_each property_list
    (fun property_name averaged_shape =>
       let averaged_shape := od_set averaged_shape property_name [] in
       for_each sorting_values
         (fun label averaged_shape =>
            m ← mean_of_label properties property_name label;
            od_append averaged_shape property_name m)
         averaged_shape)
    [].

(** Lines 262-306: smoothing, then averaging per slice. *)
Definition finalize (properties : series) (smooth_factor : Q) (centerline : Centerline)
  : result odict :=
  properties ← smooth properties smooth_factor centerline;
  z_slice ← series_get properties "z_slice";
  average properties (sorting_values_of z_slice).

(** The function returns [property_list, averaged_shape]; the printed
    warnings are kept as a third component. This is the function called with
    [verbose] other than 2 (the default is 1), which skips the display of
    lines 272-291; [compute_properties_along_centerline_verbose] has the
    argument and the display. *)
Definition compute_properties_along_centerline (centerline : Centerline)
    (fname_discs : bool) (smooth_factor : Q)
  : result (list string * odict * list Z) :=
  '(properties, _, out) ←
    for_each (points centerline) (loop_body fname_discs) (init_properties, ∅, []);
  averaged_shape ← finalize properties smooth_factor centerline;
  mret (property_list, averaged_shape, out).

End Pipeline.

(** ** Specifications the code is compared with *)

(** The test of line 128 on the number read from the dictionary. *)
Definition in_range (x : float) : bool :=
  match x with
  | Finite q => Qltb (-45) q && Qltb q 45
  | NaN => false
  end.

(** [ix] is the stable ascending argsort of [a]: it lists every index of [a],
    ordered by value and, among equal values, by position. *)
Definition key_lt (a : list Z) (p q : nat) : Prop :=
  (nth p a 0 < nth q a 0)%Z \/ (nth p a 0%Z = nth q a 0%Z /\ (p < q)%nat).

Definition stable_argsort_of (a : list Z) (ix : list nat) : Prop :=
  (forall j, j ∈ ix <-> (j < length a)%nat) /\ StronglySorted (key_lt a) ix.

(** Number of foreground (non-zero) pixels, and of positions where both
    arrays are foreground. *)
Fixpoint foreground (a : list Q) : nat :=
  match a with
  | [] => 0
  | x :: a' => (if Qeq_bool x 0 then 0 else 1) + foreground a'
  end.

Fixpoint overlap (a b : list Q) : nat :=
  match a, b with
  | x :: a', y :: b' =>
      (if Qeq_bool x 0 || Qeq_bool y 0 then 0 else 1) + overlap a' b'
  | _, _ => 0
  end.


Definition binary (q : Q) : Prop := q == 0 \/ q == 1.

(** A square array of even side whose pixels are 0 or 1. *)
Definition binary_square (square_image : list (list Q)) : Prop :=
  Nat.Even (length square_image) /\
  Forall (fun row => length row = length square_image /\ Forall binary row) square_image.

(** The distinct labels of [z], each at the place of its first occurrence. *)
Fixpoint first_seen (z : list Z) : list Z :=
  match z with
  | [] => []
  | x :: z' => x :: filter (fun y => y ≠ x) (first_seen z')
  end.

(** The values of [xs] at the indices where [z] carries [label]. *)
Fixpoint slice_values (z : list Z) (xs : list float) (label : Z) : list float :=
  match z, xs with
  | zi :: z', x :: xs' =>
      if decide (zi = label) then x :: slice_values z' xs' label
      else slice_values z' xs' label
  | _, _ => []
  end.

Definition arithmetic_mean (xs : list float) : float :=
  np_div (float_sum xs) (Finite (inject_Z (Z.of_nat (length xs)))).

Definition numeric (v : value) : Prop :=
  match v with
  | VFloat _ | VInt _ => True
  | _ => False
  end.

(** ** Instances of the parameters and sample inputs *)

(** Insertion argsort; insertion keeps equal values in index order. *)
Fixpoint insert_index (a : list Z) (i : nat) (ix : list nat) : list nat :=
  match ix with
  | [] => [i]
  | j :: ix' =>
      if (nth i a 0 <? nth j a 0)%Z then i :: ix else j :: insert_index a i ix'
  end.

Definition insertion_argsort (a : list Z) : list nat :=
  foldl (fun ix i => insert_index a i ix) [] (seq 0 (length a)).

(** A window of constant coefficients, to instantiate [hann_coeff]. *)
Definition flat_coeff (n k : nat) : Q := 1.

(** [math.cos(math.pi / 4)] and [math.sin(math.pi / 4)]; every sample region
    that is resampled has orientation [math.pi / 4], the value skimage gives
    to a region whose inertia tensor is a multiple of the identity. *)
Definition cos45 (o : Q) : Q := 6369051672525773 # 9007199254740992.
Definition sin45 (o : Q) : Q := 1592262918131443 # 2251799813685248.

Definition quarter_pi : Q := math_pi / 4.


(** A constant square of side [n]. *)
Definition const_square (n : nat) (q : Q) : list (list Q) := replicate n (replicate n q).


(** The sample patches below come with their region as skimage describes it;
    the descriptors that are irrational (equivalent diameter, axis lengths)
    are rounded to four decimals. *)

(** A single foreground pixel: both axis lengths are 0. *)
Definition pixel_region : sk.region :=
  {| sk.area := 1; sk.bbox := [0; 0; 1; 1]%Z; sk.centroid := (0, 0)%Q;
     sk.eccentricity := 0; sk.equivalent_diameter := 11284 # 10000;
     sk.euler_number := 1;
     sk.inertia_tensor := [[0; 0]; [0; 0]]%Q; sk.inertia_tensor_eigvals := [0; 0]%Q;
     sk.minor_axis_length := 0; sk.major_axis_length := 0;
     sk.moments := [[1; 0; 0; 0]; [0; 0; 0; 0]; [0; 0; 0; 0]; [0; 0; 0; 0]]%Q;
     sk.moments_central := [[1; 0; 0; 0]; [0; 0; 0; 0]; [0; 0; 0; 0]; [0; 0; 0; 0]]%Q;
     sk.orientation := quarter_pi; sk.perimeter := 0; sk.solidity := 1 |}.

Definition pixel_image : Image :=
  {| pixels := [[1]]%Q; regionprops := [pixel_region] |}.

(** A block of 2 x 2 ones in a patch of 4 x 4. *)
Definition block_region : sk.region :=
  {| sk.area := 4; sk.bbox := [1; 1; 3; 3]%Z; sk.centroid := (3 # 2, 3 # 2)%Q;
     sk.eccentricity := 0; sk.equivalent_diameter := 22568 # 10000;
     sk.euler_number := 1;
     sk.inertia_tensor := [[1 # 4; 0]; [0; 1 # 4]]%Q;
     sk.inertia_tensor_eigvals := [1 # 4; 1 # 4]%Q;
     sk.minor_axis_length := 2; sk.major_axis_length := 2;
     sk.moments := [[4; 2; 2; 2]; [2; 1; 1; 1]; [2; 1; 1; 1]; [2; 1; 1; 1]]%Q;
     sk.moments_central :=
       [[4; 0; 1; 0]; [0; 0; 0; 0]; [1; 0; 1 # 4; 0]; [0; 0; 0; 0]]%Q;
     sk.orientation := quarter_pi; sk.perimeter := 4; sk.solidity := 1 |}.

Definition block_image : Image :=
  {| pixels := [[0; 0; 0; 0]; [0; 1; 1; 0]; [0; 1; 1; 0]; [0; 0; 0; 0]]%Q;
     regionprops := [block_region] |}.





(** An all-background patch: no region. *)
Definition empty_patch : Image :=
  {| pixels := const_square 4 0; regionprops := [] |}.

Definition sample_point (image : Image) (z : Z) : Point :=
  {| patch := image; incremental_length := 1; dist_points := 0;
     l_points := 0; z_pix := z |}.

(** A dictionary with the three keys read by [assign_AP_and_RL_diameter]. *)
Definition sample_dict (o : Q) : dict :=
  <["orientation" := VFloat (Finite o)]>
    (<["major_axis_length" := VFloat (Finite 3)]>
       (<["minor_axis_length" := VFloat (Finite 2)]> ∅)).

(** A series dictionary: every property holds [xs], [z_slice] holds [z]. *)
Definition sample_series (z : list Z) (xs : list float) : series :=
  <["z_slice" := VInt <$> z]>
    (list_to_map ((fun key => (key, VFloat <$> xs)) <$> property_list)).

Definition sample_centerline : Centerline :=
  {| points := [sample_point block_image 5; sample_point block_image 5;
                sample_point block_image 6];
     progressive_length := [1; 1; 1]%Q |}.

(** The value appended for a label, nan standing for a failed computation. *)
Definition mean_or_nan (properties : series) (property_name : string)
    (label : value) : float :=
  match mean_of_label properties property_name label with
  | Ok m => m
  | Raise _ => NaN
  end.

(** The seventeen keys of the dictionary built by [properties2d]. *)
Definition properties2d_keys : list string :=
  [ "area"; "bbox"; "centroid"; "eccentricity"; "equivalent_diameter";
    "euler_number"; "inertia_tensor"; "inertia_tensor_eigvals";
    "minor_axis_length"; "major_axis_length"; "moments"; "moments_central";
    "orientation"; "perimeter"; "ratio_minor_major"; "solidity"; "symmetry" ].

(** The series once the points [pts] have been measured: the auxiliary series
    list what the centerline gives for each point, in order (the two series
    of the discs only with a disc file), and each of the nine property series
    holds one float per point. *)
Definition sampled (fname_discs : bool) (pts : list Point) (properties : series)
  : Prop :=
  properties !! "z_slice" = Some ((fun pt => VInt (z_pix pt)) <$> pts) /\
  properties !! "incremental_length"
    = Some ((fun pt => VFloat (Finite (incremental_length pt))) <$> pts) /\
  properties !! "distance_from_C1"
    = Some (if fname_discs
            then (fun pt => VFloat (Finite (dist_points pt))) <$> pts else []) /\
  properties !! "vertebral_level"
    = Some (if fname_discs then (fun pt => VInt (l_points pt)) <$> pts else []) /\
  forall name, name ∈ property_list ->
    exists xs : list float,
      properties !! name = Some (VFloat <$> xs) /\ length xs = length pts.




(** ** The function with its [verbose] argument *)

Section Display.

Variable np_argsort : list Z -> list nat.
Variable math_cos math_sin : Q -> Q.
Variable hann_coeff : nat -> nat -> Q.

(** matplotlib is not part of the repository: [plt.subplots(n, ...)], the
    call [axes[k].plot(x, y)] followed by [axes[k].set_ylabel(...)], and the
    end of the display (lines 283-291: the ticks of the discs, read from
    attributes of the centerline object, or the label of the last axis, then
    [plt.show()]) are parameters. *)
Variable plt_subplots : nat -> result unit.
Variable plt_plot : nat -> list value -> list value -> result unit.
Variable plt_show : bool -> result unit.

(** Lines 273-291. The key that line 284 adds to [properties] is not read
    afterwards. *)
Definition display (fname_discs : bool) (properties : series) : result unit :=
  let x_increment :=
    if fname_discs then "incremental_length" else "distance_from_C1" in
  plt_subplots (length property_list) ≫= fun _ =>
  for_each (enumerate property_list)
    (fun '(k, property_name) (_ : unit) =>
       x ← series_get properties x_increment;
       y ← series_get properties property_name;
       plt_plot k x y)
    tt ≫= fun _ =>
  plt_show fname_discs.

(** Lines 136-313 with the argument [verbose]: the display is reached with
    [verbose == 2] only, between the smoothing and the averaging. *)
Definition compute_properties_along_centerline_verbose (verbose : Z)
    (centerline : Centerline) (fname_discs : bool) (smooth_factor : Q)
  : result (list string * odict * list Z) :=
  '(properties, _, out) ←
    for_each (points centerline)
      (loop_body np_argsort math_cos math_sin fname_discs) (init_properties, ∅, []);
  properties ← smooth hann_coeff properties smooth_factor centerline;
  (if (verbose =? 2)%Z then display fname_discs properties else mret tt) ≫= fun _ =>
  z_slice ← series_get properties "z_slice";
  averaged_shape ← average properties (sorting_values_of z_slice);
  mret (property_list, averaged_shape, out).

End Display.

(** A matplotlib that only checks what [plot] checks first: [x] and [y] must
    have the same length. *)
Definition sample_subplots (n : nat) : result unit := Ok tt.

Definition sample_plot (k : nat) (x y : list value) : result unit :=
  if decide (length x = length y) then Ok tt else Raise ValueError.

Definition sample_show (fname_discs : bool) : result unit := Ok tt.

(** * Properties *)

(** ** The result monad *)

Lemma bind_Ok {A B} (f : A -> result B) (a : A) : (Ok a ≫= f) = f a.
Proof. reflexivity. Qed.

Lemma bind_inv {A B} (f : A -> result B) (m : result A) (b : B) :
  (m ≫= f) = Ok b -> exists a, m = Ok a /\ f a = Ok b.
Proof. destruct m as [a|e]; simpl; [eauto | discriminate]. Qed.

Lemma Qltb_lt (x y : Q) : Qltb x y = true <-> (x < y)%Q.
Proof.
  unfold Qltb. rewrite negb_true_iff, <- not_true_iff_false, Qle_bool_iff.
  split; [apply Qnot_le_lt | apply Qlt_not_le].
Qed.

Lemma in_range_Finite (o : Q) :
  in_range (Finite o) = true <-> (-45 < o /\ o < 45)%Q.
Proof. simpl. by rewrite andb_true_iff, !Qltb_lt. Qed.

(** ** The axis disambiguator *)

Lemma getitem_dict (h : heap) (l : loc) (d : dict) (key : string) (v : value) :
  h !! l = Some d -> d !! key = Some v -> getitem (PyDict l) key h = Ok v.
Proof. intros Hl Hk. unfold getitem. by rewrite Hl, Hk. Qed.

Lemma setitem_dict (h : heap) (l : loc) (d : dict) (key : string) (v : value) :
  h !! l = Some d -> setitem (PyDict l) key v h = Ok (<[l := <[key := v]> d]> h).
Proof. intros Hl. unfold setitem. by rewrite Hl. Qed.

(** What the function computes on a dictionary that holds the three keys it
    reads. *)
Lemma assign_AP_and_RL_diameter_eq (h : heap) (l : loc) (d : dict)
    (o major minor : value) (x : float) :
  h !! l = Some d ->
  d !! "orientation" = Some o -> as_float o = Ok x ->
  d !! "major_axis_length" = Some major ->
  d !! "minor_axis_length" = Some minor ->
  assign_AP_and_RL_diameter (PyDict l) h =
    Ok (PyDict l,
        <[l := <["AP_diameter" := if in_range x then minor else major]>
                 (<["RL_diameter" := if in_range x then major else minor]> d)]> h).
Proof.
  intros Hl Ho Hx Hma Hmi. unfold assign_AP_and_RL_diameter.
  rewrite (getitem_dict h l d _ o Hl Ho), bind_Ok.
  unfold chained_lt. rewrite Hx, bind_Ok.
  assert (Hc : (match x with
                | Finite q => Ok (Qltb (-45) q && Qltb q 45)
                | NaN => Ok false
                end : result bool) = Ok (in_range x)) by (by destruct x).
  rewrite Hc, bind_Ok. clear Hc.
  destruct (in_range x).
  - rewrite (getitem_dict h l d _ major Hl Hma), bind_Ok.
    rewrite (setitem_dict h l d _ _ Hl), bind_Ok.
    erewrite getitem_dict; [| apply lookup_insert_eq | by rewrite lookup_insert_ne].
    rewrite bind_Ok.
    erewrite setitem_dict; [| apply lookup_insert_eq].
    rewrite bind_Ok. by rewrite insert_insert_eq.
  - rewrite (getitem_dict h l d _ minor Hl Hmi), bind_Ok.
    rewrite (setitem_dict h l d _ _ Hl), bind_Ok.
    erewrite getitem_dict; [| apply lookup_insert_eq | by rewrite lookup_insert_ne].
    rewrite bind_Ok.
    erewrite setitem_dict; [| apply lookup_insert_eq].
    rewrite bind_Ok. by rewrite insert_insert_eq.
Qed.

(** On [None] the first subscript already raises. *)
Lemma assign_AP_and_RL_diameter_None (h : heap) :
  assign_AP_and_RL_diameter PyNone h = Raise TypeError.
Proof. reflexivity. Qed.

(** C6. On a dictionary whose orientation is the number [o] (in degrees),
    [RL_diameter] is the major axis length and [AP_diameter] the minor one
    exactly when -45 < o < 45, both inequalities strict; otherwise the two are
    swapped. In particular o = 0 gives RL = major and o = 90 gives RL = minor. *)
Theorem assign_AP_and_RL_diameter_rule (h : heap) (l : loc) (d : dict)
    (o : Q) (major minor : value) :
  h !! l = Some d ->
  d !! "orientation" = Some (VFloat (Finite o)) ->
  d !! "major_axis_length" = Some major ->
  d !! "minor_axis_length" = Some minor ->
  exists d' : dict,
    assign_AP_and_RL_diameter (PyDict l) h = Ok (PyDict l, <[l := d']> h) /\
    ((-45 < o /\ o < 45)%Q ->
       d' !! "RL_diameter" = Some major /\ d' !! "AP_diameter" = Some minor) /\
    (~ (-45 < o /\ o < 45)%Q ->
       d' !! "RL_diameter" = Some minor /\ d' !! "AP_diameter" = Some major) /\
    (o == 0 -> d' !! "RL_diameter" = Some major) /\
    (o == 90 -> d' !! "RL_diameter" = Some minor).
Proof.
  intros Hl Ho Hma Hmi.
  eexists. split.
  { by apply (assign_AP_and_RL_diameter_eq h l d (VFloat (Finite o)) major minor (Finite o)). }
  assert (Hin : (-45 < o /\ o < 45)%Q ->
            in_range (Finite o) = true) by apply in_range_Finite.
  assert (Hout : ~ (-45 < o /\ o < 45)%Q -> in_range (Finite o) = false).
  { intros Hn. apply not_true_iff_false. by rewrite in_range_Finite. }
  split; [| split; [| split]].
  - intros Hr. rewrite (Hin Hr). split.
    + rewrite lookup_insert_ne by done. apply lookup_insert_eq.
    + apply lookup_insert_eq.
  - intros Hr. rewrite (Hout Hr). split.
    + rewrite lookup_insert_ne by done. apply lookup_insert_eq.
    + apply lookup_insert_eq.
  - intros H0. rewrite Hin by (rewrite H0; lra).
    rewrite lookup_insert_ne by done. apply lookup_insert_eq.
  - intros H90. rewrite Hout by (rewrite H90; lra).
    rewrite lookup_insert_ne by done. apply lookup_insert_eq.
Qed.

Lemma assign_AP_and_RL_diameter_rule_witness :
  exists d' : dict,
    assign_AP_and_RL_diameter (PyDict 1) {[ 1%positive := sample_dict 90 ]}
      = Ok (PyDict 1, <[1%positive := d']> {[ 1%positive := sample_dict 90 ]}) /\
    d' !! "RL_diameter" = Some (VFloat (Finite 2)).
Proof.
  destruct (assign_AP_and_RL_diameter_rule
              {[ 1%positive := sample_dict 90 ]} 1 (sample_dict 90) 90
              (VFloat (Finite 3)) (VFloat (Finite 2)))
    as (d' & Heq & _ & _ & _ & H90); try reflexivity.
  exists d'. split; [exact Heq | by apply H90].
Defined.

(** C9. The function updates the dictionary object it is given and returns
    that same object: the heap changes at that location only, the keys
    [RL_diameter] and [AP_diameter] are set, every other key keeps its value,
    and when the two keys were absent every pair of the input is kept. *)
Theorem assign_AP_and_RL_diameter_in_place (h : heap) (l : loc) (d : dict)
    (o major minor : value) (x : float) :
  h !! l = Some d ->
  d !! "orientation" = Some o -> as_float o = Ok x ->
  d !! "major_axis_length" = Some major ->
  d !! "minor_axis_length" = Some minor ->
  exists d' : dict,
    assign_AP_and_RL_diameter (PyDict l) h = Ok (PyDict l, <[l := d']> h) /\
    (forall l', l' ≠ l -> (<[l := d']> h) !! l' = h !! l') /\
    is_Some (d' !! "RL_diameter") /\ is_Some (d' !! "AP_diameter") /\
    (forall k, k ≠ "RL_diameter" -> k ≠ "AP_diameter" -> d' !! k = d !! k) /\
    (d !! "RL_diameter" = None -> d !! "AP_diameter" = None ->
       d ⊆ d' /\ dom d' = {["AP_diameter"]} ∪ ({["RL_diameter"]} ∪ dom d)).
Proof.
  intros Hl Ho Hx Hma Hmi.
  eexists. split.
  { by apply (assign_AP_and_RL_diameter_eq h l d o major minor x). }
  split; [| split; [| split; [| split]]].
  - intros l' Hne. by rewrite lookup_insert_ne.
  - rewrite lookup_insert_ne by done. rewrite lookup_insert_eq. by eexists.
  - rewrite lookup_insert_eq. by eexists.
  - intros k H1 H2. by rewrite !lookup_insert_ne.
  - intros Hrl Hap. split.
    + etrans; [apply (insert_subseteq _ "RL_diameter"); exact Hrl |].
      apply insert_subseteq. by rewrite lookup_insert_ne.
    + by rewrite !dom_insert_L.
Qed.

Lemma assign_AP_and_RL_diameter_in_place_witness :
  exists d' : dict,
    assign_AP_and_RL_diameter (PyDict 1) {[ 1%positive := sample_dict 0 ]}
      = Ok (PyDict 1, <[1%positive := d']> {[ 1%positive := sample_dict 0 ]}) /\
    sample_dict 0 ⊆ d'.
Proof.
  destruct (assign_AP_and_RL_diameter_in_place
              {[ 1%positive := sample_dict 0 ]} 1 (sample_dict 0)
              (VFloat (Finite 0)) (VFloat (Finite 3)) (VFloat (Finite 2)) (Finite 0))
    as (d' & Heq & _ & _ & _ & _ & Hsub); try reflexivity.
  exists d'. split; [exact Heq | by apply Hsub].
Defined.

(** ** The region property extractor *)

Lemma py_div_nonzero (x y : Q) : ~ y == 0 -> py_div x y = Ok (x / y)%Q.
Proof.
  intros Hy. unfold py_div.
  destruct (Qeq_bool y 0) eqn:E; [| done].
  by apply Qeq_bool_iff in E.
Qed.

Lemma py_div_zero (x y : Q) : y == 0 -> py_div x y = Raise ZeroDivisionError.
Proof. intros Hy. unfold py_div. apply Qeq_bool_iff in Hy. by rewrite Hy. Qed.

(** The [try] block always produces a number. *)
Lemma ratio_minor_major_eq (r : sk.region) :
  ratio_minor_major r =
    Ok (if Qeq_bool (sk.major_axis_length r) 0 then 0%Q
        else (sk.minor_axis_length r / sk.major_axis_length r)%Q).
Proof.
  unfold ratio_minor_major, py_div.
  by destruct (Qeq_bool (sk.major_axis_length r) 0).
Qed.

(** The dictionary built for the selected region, when the steps around the
    ratio (selection, scaling, resampling, Dice score) go through. *)
Lemma properties2d_region (np_argsort : list Z -> list nat)
    (math_cos math_sin : Q -> Q) (image : Image)
    (resolution : option (Q * Q)) (h : heap) (r : sk.region) (ratio : Q)
    (area : value) (diameter major_l minor_l size_grid : Q)
    (square_image : list (list Q)) (dice : float) :
  regionprops image ≠ [] ->
  sc_region_of np_argsort (regionprops image) = Ok r ->
  ratio_minor_major r = Ok ratio ->
  scaled resolution r = Ok (area, diameter, major_l, minor_l, size_grid) ->
  resampled_square math_cos math_sin image (sk.centroid r).2 (sk.centroid r).1
    (sk.orientation r) size_grid = Ok square_image ->
  dice_symmetry square_image = Ok dice ->
  exists d : dict,
    properties2d np_argsort math_cos math_sin image resolution h = Ok (new_dict d h) /\
    d !! "area" = Some area /\
    d !! "equivalent_diameter" = Some (VFloat (Finite diameter)) /\
    d !! "major_axis_length" = Some (VFloat (Finite major_l)) /\
    d !! "minor_axis_length" = Some (VFloat (Finite minor_l)) /\
    d !! "orientation" = Some (VFloat (Finite (sk.orientation r * 180 / math_pi))) /\
    d !! "ratio_minor_major" = Some (VFloat (Finite ratio)) /\
    d !! "eccentricity" = Some (VFloat (Finite (sk.eccentricity r))) /\
    d !! "solidity" = Some (VFloat (Finite (sk.solidity r))) /\
    d !! "symmetry" = Some (VFloat dice) /\
    d !! "RL_diameter" = None /\ d !! "AP_diameter" = None.
Proof.
  intros Hne Hsel Hratio Hsc Hsq Hdice.
  unfold properties2d.
  rewrite bool_decide_true by (by destruct (regionprops image)).
  rewrite Hsel, bind_Ok, Hratio, bind_Ok, Hsc, bind_Ok.
  destruct (sk.centroid r) as [y0 x0] eqn:Hc. cbn [fst snd] in Hsq.
  rewrite Hsq, bind_Ok, Hdice, bind_Ok.
  eexists. split; [reflexivity |].
  repeat split; reflexivity.
Qed.

Lemma properties2d_empty (np_argsort : list Z -> list nat)
    (math_cos math_sin : Q -> Q) (image : Image)
    (resolution : option (Q * Q)) (h : heap) :
  regionprops image = [] ->
  properties2d np_argsort math_cos math_sin image resolution h = Ok (PyNone, h).
Proof. intros He. unfold properties2d. by rewrite He. Qed.

(** The same with a resolution [(r0, r1)], as in the pipeline: the grid has
    half-width [8 / r0]. *)
Lemma properties2d_resolution (np_argsort : list Z -> list nat)
    (math_cos math_sin : Q -> Q) (image : Image) (r0 r1 : Q) (h : heap)
    (r : sk.region) (square_image : list (list Q)) (dice : float) :
  regionprops image ≠ [] ->
  sc_region_of np_argsort (regionprops image) = Ok r ->
  ~ (r0 == 0)%Q ->
  resampled_square math_cos math_sin image (sk.centroid r).2 (sk.centroid r).1
    (sk.orientation r) (8 / r0) = Ok square_image ->
  dice_symmetry square_image = Ok dice ->
  exists d : dict,
    properties2d np_argsort math_cos math_sin image (Some (r0, r1)) h
      = Ok (new_dict d h) /\
    d !! "symmetry" = Some (VFloat dice).
Proof.
  intros Hne Hsel Hr0 Hsq Hdice.
  edestruct (properties2d_region np_argsort math_cos math_sin image (Some (r0, r1)) h r)
    as (d & Hp & Hd); [exact Hne | exact Hsel | apply ratio_minor_major_eq | |
                       exact Hsq | exact Hdice |].
  { unfold scaled. by rewrite (py_div_nonzero 8 r0 Hr0). }
  exists d. split; [exact Hp | apply Hd].
Qed.

(** C2. For a region with 0 <= minor_axis_length <= major_axis_length, as
    skimage computes them, the [try] block of [properties2d] never raises: it
    yields minor / major, or 0 when the major axis length is 0, a number of
    [0, 1]; and that number is what the returned dictionary holds under
    [ratio_minor_major] whenever the other steps of the extractor go through. *)
Theorem ratio_minor_major_unit_interval (r : sk.region) :
  (0 <= sk.minor_axis_length r)%Q ->
  (sk.minor_axis_length r <= sk.major_axis_length r)%Q ->
  exists q : Q,
    ratio_minor_major r = Ok q /\
    (0 <= q /\ q <= 1)%Q /\
    (~ sk.major_axis_length r == 0 ->
       q = (sk.minor_axis_length r / sk.major_axis_length r)%Q) /\
    (sk.major_axis_length r == 0 -> q = 0%Q) /\
    forall np_argsort math_cos math_sin image resolution h area diameter major_l
           minor_l size_grid square_image dice,
      regionprops image ≠ [] ->
      sc_region_of np_argsort (regionprops image) = Ok r ->
      scaled resolution r = Ok (area, diameter, major_l, minor_l, size_grid) ->
      resampled_square math_cos math_sin image (sk.centroid r).2 (sk.centroid r).1
        (sk.orientation r) size_grid = Ok square_image ->
      dice_symmetry square_image = Ok dice ->
      exists d : dict,
        properties2d np_argsort math_cos math_sin image resolution h
          = Ok (new_dict d h) /\
        d !! "ratio_minor_major" = Some (VFloat (Finite q)).
Proof.
  intros Hmin Hle.
  eexists. split; [apply ratio_minor_major_eq |].
  destruct (Qeq_bool (sk.major_axis_length r) 0) eqn:E.
  - apply Qeq_bool_iff in E.
    split; [lra |]. split; [done |]. split; [done |].
    intros; edestruct properties2d_region as (d & Hp & Hd); eauto.
    { rewrite ratio_minor_major_eq. apply Qeq_bool_iff in E. by rewrite E. }
    exists d. split; [exact Hp | apply Hd].
  - assert (Hnz : ~ sk.major_axis_length r == 0).
    { intros Hz. apply Qeq_bool_iff in Hz. congruence. }
    assert (Hpos : (0 < sk.major_axis_length r)%Q) by lra.
    split.
    { split.
      - apply Qle_shift_div_l; [done | lra].
      - apply Qle_shift_div_r; [done | lra]. }
    split; [done |]. split; [done |].
    intros; edestruct properties2d_region as (d & Hp & Hd); eauto.
    { rewrite ratio_minor_major_eq. by rewrite E. }
    exists d. split; [exact Hp | apply Hd].
Qed.

Lemma ratio_minor_major_unit_interval_witness :
  ratio_minor_major pixel_region = Ok 0%Q /\
  exists q : Q, ratio_minor_major block_region = Ok q /\ (q <= 1)%Q.
Proof.
  split.
  - destruct (ratio_minor_major_unit_interval pixel_region)
      as (q & Hq & _ & _ & Hz & _); [simpl; lra | simpl; lra |].
    rewrite Hq. f_equal. by apply Hz.
  - destruct (ratio_minor_major_unit_interval block_region)
      as (q & Hq & [_ Hle] & _); [simpl; lra | simpl; lra |].
    by exists q.
Defined.

(** ** The symmetry score *)

Lemma binary_cases (x : Q) :
  binary x ->
  (Qeq_bool x 0 = true /\ Qeq_bool x 1 = false /\ x == 0) \/
  (Qeq_bool x 0 = false /\ Qeq_bool x 1 = true /\ x == 1).
Proof.
  intros [H|H].
  - left. split; [by apply Qeq_bool_iff |]. split; [| done].
    apply not_true_iff_false. rewrite Qeq_bool_iff, H. lra.
  - right. split; [| split; [by apply Qeq_bool_iff | done]].
    apply not_true_iff_false. rewrite Qeq_bool_iff, H. lra.
Qed.

Lemma Qsum_binary (a : list Q) :
  Forall binary a -> Qsum a == inject_Z (Z.of_nat (foreground a)).
Proof.
  induction 1 as [| x a Hx _ IH]; [reflexivity |].
  cbn [Qsum foldr foreground]. fold (Qsum a). rewrite IH.
  rewrite Nat2Z.inj_add, inject_Z_plus.
  destruct (binary_cases x Hx) as [(-> & _ & E) | (-> & _ & E)]; rewrite E; reflexivity.
Qed.

Lemma Qsum_select_eq1 (a m : list Q) :
  Forall binary a -> Forall binary m ->
  Qsum (select_eq1 a m) == inject_Z (Z.of_nat (overlap a m)).
Proof.
  intros Ha. revert m. induction Ha as [| x a Hx _ IH]; intros m Hm; [reflexivity |].
  destruct Hm as [| y m Hy Hm]; [reflexivity |].
  cbn [select_eq1 overlap].
  rewrite Nat2Z.inj_add, inject_Z_plus, <- (IH m Hm).
  destruct (binary_cases y Hy) as [(-> & -> & _) | (-> & -> & _)];
    destruct (binary_cases x Hx) as [(-> & _ & E) | (-> & _ & E)];
    cbn [Qsum foldr orb]; fold (Qsum (select_eq1 a m)); try rewrite E;
    change (inject_Z (Z.of_nat 0)) with 0%Q; change (inject_Z (Z.of_nat 1)) with 1%Q; lra.
Qed.



Lemma foreground_app (a b : list Q) :
  foreground (a ++ b) = (foreground a + foreground b)%nat.
Proof. induction a as [| x a IH]; simpl; [done | rewrite IH; lia]. Qed.

Lemma foreground_reverse (a : list Q) : foreground (reverse a) = foreground a.
Proof.
  induction a as [| x a IH]; [done |].
  rewrite reverse_cons, foreground_app, IH. simpl. lia.
Qed.

Lemma foreground_halves (n : nat) (rows : list (list Q)) :
  (foreground (concat (take n <$> rows))
   + foreground (concat ((fun row => reverse (drop n row)) <$> rows)))%nat
  = foreground (concat rows).
Proof.
  induction rows as [| row rows IH]; [done |].
  cbn [fmap list_fmap concat]. rewrite !foreground_app, foreground_reverse.
  rewrite <- (take_drop n row) at 3. rewrite foreground_app.
  cbn [fmap] in IH. lia.
Qed.

Lemma binary_square_shapes (sq : list (list Q)) :
  binary_square sq ->
  length <$> left_image sq = length <$> right_image sq /\
  Forall binary (concat (left_image sq)) /\
  Forall binary (concat (right_image sq)).
Proof.
  intros [[k Hk] Hrows]. unfold left_image, right_image, size_half.
  assert (Hh : (length sq / 2)%nat = k).
  { rewrite Hk, (Nat.mul_comm 2 k). by apply Nat.div_mul. }
  rewrite Hh. rewrite Hk in Hrows. clear Hk Hh.
  induction sq as [| row sq IH]; [by repeat constructor |].
  inversion Hrows as [| ? ? [Hlen Hbin] Hrest]; subst.
  destruct (IH Hrest) as (IH1 & IH2 & IH3).
  cbn [fmap list_fmap concat]. repeat split.
  - f_equal; [| exact IH1].
    rewrite length_take, length_reverse, length_drop. lia.
  - apply Forall_app. split; [| exact IH2]. by apply Forall_take.
  - apply Forall_app. split; [| exact IH3].
    apply Forall_reverse. by apply Forall_drop.
Qed.

(** The two halves of a binary square have the same shape, so the score is
    the quotient below. *)
Lemma dice_symmetry_eq (sq : list (list Q)) :
  binary_square sq ->
  dice_symmetry sq =
    Ok (np_div (Finite (Qsum (select_eq1 (concat (left_image sq))
                                          (concat (right_image sq))) * 2))
               (Finite (np_sum2 (left_image sq) + np_sum2 (right_image sq)))).
Proof.
  intros Hsq. destruct (binary_square_shapes sq Hsq) as (Hshape & _ & _).
  unfold dice_symmetry, mask_eq1. by rewrite bool_decide_true.
Qed.


(** A resampled square has as many columns as rows, whatever the patch. *)
Lemma chunks_shape (rows n : nat) (l : list Q) :
  length l = (rows * n)%nat ->
  length (chunks rows n l) = rows /\
  Forall (fun row => length row = n) (chunks rows n l).
Proof.
  revert l. induction rows as [| rows IH]; intros l Hl; [by split |].
  destruct (IH (drop n l)) as [IH1 IH2]; [rewrite length_drop; lia |].
  cbn [chunks length]. split; [by rewrite IH1 |].
  constructor; [| exact IH2]. rewrite length_take. lia.
Qed.

Lemma resampled_square_shape (math_cos math_sin : Q -> Q) (image : Image)
    (x0 y0 orientation size_grid : Q) (sq : list (list Q)) :
  resampled_square math_cos math_sin image x0 y0 orientation size_grid = Ok sq ->
  length sq = length (mgrid_axis size_grid (25 # 100)) /\
  Forall (fun row => length row = length sq) sq.
Proof.
  unfold resampled_square. intros H.
  apply bind_inv in H as (square & _ & H). unfold reshape in H.
  destruct (decide _) as [Hlen |]; [| discriminate].
  injection H as <-.
  destruct (chunks_shape _ _ _ Hlen) as [H1 H2]. split; [exact H1 |].
  by rewrite H1.
Qed.

(** In the pipeline the resolution is 0.5: the grid has half-width 16 and the
    square 128 rows, an even number. *)
Lemma pipeline_square_side :
  scaled (Some (resolution, resolution)) block_region
    = Ok (VFloat (Finite (inject_Z 4 * (resolution * resolution))),
          sk.equivalent_diameter block_region * resolution,
          2 * resolution, 2 * resolution, 8 / resolution)%Q /\
  length (mgrid_axis (8 / resolution) (25 # 100)) = 128%nat.
Proof. split; [reflexivity | by vm_compute]. Qed.



(** ** Selection of the largest region *)

Lemma key_lt_le (a : list Z) (p q : nat) : key_lt a p q -> (nth p a 0 <= nth q a 0)%Z.
Proof. intros [H | [H _]]; lia. Qed.



(** Insertion argsort is a stable ascending argsort. *)
Lemma insert_index_sorted (a : list Z) (i : nat) (ix : list nat) :
  StronglySorted (key_lt a) ix ->
  Forall (fun j => (j < i)%nat) ix ->
  StronglySorted (key_lt a) (insert_index a i ix) /\
  (forall j, j ∈ insert_index a i ix <-> j = i \/ j ∈ ix).
Proof.
  induction ix as [| j ix IH]; intros Hs Hlt.
  - split; [repeat constructor |]. intros j. simpl. by rewrite elem_of_cons.
  - apply StronglySorted_cons in Hs as [Hj Hs].
    apply Forall_cons in Hlt as [Hji Hlt].
    simpl. destruct (nth i a 0 <? nth j a 0)%Z eqn:E.
    + apply Z.ltb_lt in E. split; [| intros k; apply elem_of_cons].
      constructor; [by constructor |].
      constructor; [by left |].
      eapply Forall_impl; [exact Hj |]. intros k Hk. left.
      apply key_lt_le in Hk. lia.
    + apply Z.ltb_ge in E. destruct (IH Hs Hlt) as [IHs IHm].
      split; [| intros k; rewrite !elem_of_cons, IHm; tauto].
      constructor; [exact IHs |].
      apply Forall_forall. intros k Hk. apply IHm in Hk as [-> | Hk].
      * destruct (Z.eq_dec (nth j a 0%Z) (nth i a 0%Z)) as [Heq | Hneq];
          [right; split; [done | lia] | left; lia].
      * rewrite Forall_forall in Hj. by apply Hj.
Qed.

Lemma insertion_argsort_stable (a : list Z) :
  stable_argsort_of a (insertion_argsort a).
Proof.
  unfold insertion_argsort, stable_argsort_of.
  induction (length a) as [| n IH].
  - split; [| constructor]. intros j. simpl. split; [by intros ?%elem_of_nil | lia].
  - rewrite seq_S, foldl_app. simpl. destruct IH as [IHm IHs].
    destruct (insert_index_sorted a n
                (foldl (fun ix i => insert_index a i ix) [] (seq 0 n))) as [Hs Hm].
    + exact IHs.
    + apply Forall_forall. intros j Hj. by apply IHm.
    + split; [| exact Hs]. intros j. rewrite Hm, IHm. lia.
Qed.



(** ** The sampling loop *)

Lemma for_each_app {A S} (l1 l2 : list A) (body : A -> S -> result S) (s : S) :
  for_each (l1 ++ l2) body s = (for_each l1 body s ≫= for_each l2 body).
Proof.
  revert s. induction l1 as [| a l1 IH]; intros s; [done |].
  simpl. destruct (body a s) as [s' | e]; simpl; [apply IH | done].
Qed.

(** A point whose patch has no region stops the loop: [properties2d] returns
    [None], and the call of line 241 subscripts it. *)
Lemma loop_body_no_region (np_argsort : list Z -> list nat)
    (math_cos math_sin : Q -> Q) (fname_discs : bool)
    (pt : Point) (st : loop_state) :
  regionprops (patch pt) = [] ->
  loop_body np_argsort math_cos math_sin fname_discs pt st = Raise TypeError.
Proof.
  intros He. destruct st as [[properties h] out]. unfold loop_body.
  by rewrite (properties2d_empty _ _ _ _ _ _ He).
Qed.

Lemma for_each_loop_raises (np_argsort : list Z -> list nat)
    (math_cos math_sin : Q -> Q) (fname_discs : bool)
    (pts : list Point) (pt : Point) (st : loop_state) :
  pt ∈ pts -> regionprops (patch pt) = [] ->
  exists e,
    for_each pts (loop_body np_argsort math_cos math_sin fname_discs) st = Raise e.
Proof.
  intros Hin He. apply list_elem_of_split in Hin as (l1 & l2 & ->).
  rewrite for_each_app.
  destruct (for_each l1 (loop_body np_argsort math_cos math_sin fname_discs) st)
    as [st' | e]; simpl; [| by eexists].
  rewrite (loop_body_no_region _ _ _ _ _ _ He). by eexists.
Qed.

(** C1 fails on the code. Whenever some point of the centerline has a patch
    without foreground region, the iteration for that point raises [TypeError]
    before the test of line 243 is reached, nothing is logged, and the whole
    computation ends with an exception instead of returning. *)
Theorem missing_region_aborts (np_argsort : list Z -> list nat)
    (math_cos math_sin : Q -> Q) (hann_coeff : nat -> nat -> Q)
    (centerline : Centerline) (fname_discs : bool) (smooth_factor : Q) (pt : Point) :
  pt ∈ points centerline ->
  regionprops (patch pt) = [] ->
  (forall st, loop_body np_argsort math_cos math_sin fname_discs pt st
              = Raise TypeError) /\
  exists e,
    compute_properties_along_centerline np_argsort math_cos math_sin hann_coeff
      centerline fname_discs smooth_factor = Raise e.
Proof.
  intros Hin He. split; [intros st; by apply loop_body_no_region |].
  unfold compute_properties_along_centerline.
  destruct (for_each_loop_raises np_argsort math_cos math_sin fname_discs
              (points centerline) pt (init_properties, ∅, []) Hin He) as [e ->].
  by exists e.
Qed.

Lemma missing_region_aborts_witness :
  compute_properties_along_centerline insertion_argsort cos45 sin45 flat_coeff
    {| points := [sample_point block_image 5; sample_point empty_patch 6;
                  sample_point block_image 7];
       progressive_length := [1; 1; 1]%Q |} false 0 = Raise TypeError.
Proof.
  destruct (missing_region_aborts insertion_argsort cos45 sin45 flat_coeff
              {| points := [sample_point block_image 5; sample_point empty_patch 6;
                            sample_point block_image 7];
                 progressive_length := [1; 1; 1]%Q |} false 0
              (sample_point empty_patch 6)) as [_ [e He]].
  - apply elem_of_cons. right. apply elem_of_cons. by left.
  - reflexivity.
  - vm_compute. reflexivity.
Defined.

(** ** Smoothing *)

Lemma length_float_zip_add (a b : list float) :
  length (float_zip_add a b) = (length a `max` length b)%nat.
Proof.
  revert b. induction a as [| x a IH]; intros [| y b]; simpl; try done.
  by rewrite IH.
Qed.

Lemma length_convolve_full (a : list float) (w : list Q) :
  a ≠ [] -> w ≠ [] ->
  length (convolve_full a w) = (length a + length w - 1)%nat.
Proof.
  intros Ha Hw. induction a as [| x a IH]; [done |].
  assert (0 < length w)%nat by (destruct w; [done | simpl; lia]).
  cbn [convolve_full]. rewrite length_float_zip_add, length_fmap. cbn [length].
  destruct a as [| y a]; [simpl; lia |].
  rewrite IH by done. cbn [length]. lia.
Qed.

Lemma convolve_same_length (a : list float) (w : list Q) :
  w ≠ [] ->
  exists c, convolve_same a w = Ok c /\ length c = length a.
Proof.
  intros Hw. unfold convolve_same.
  destruct w as [| q w]; [done |]. eexists. split; [reflexivity |].
  rewrite length_take, length_drop.
  destruct a as [| x a]; [done |].
  rewrite length_convolve_full by done.
  assert (Hs : ((length (q :: w) - 1) / 2 <= length (q :: w) - 1)%nat).
  { apply Nat.Div0.div_le_upper_bound. lia. }
  revert Hs. generalize ((length (q :: w) - 1) / 2)%nat. intros s Hs.
  cbn [length] in *. lia.
Qed.

Lemma mapM_as_float_numeric (vs : list value) :
  Forall numeric vs ->
  exists xs, mapM as_float vs = Ok xs /\ length xs = length vs.
Proof.
  induction 1 as [| v vs Hv _ (xs & IH & Hlen)]; [by exists [] |].
  destruct v as [x | n | t | t]; try done.
  - exists (x :: xs). cbn. rewrite IH. split; [done | simpl; by rewrite Hlen].
  - exists (Finite (inject_Z n) :: xs). cbn. rewrite IH. split; [done | simpl; by rewrite Hlen].
Qed.

Lemma smooth_values_length (window : list Q) (vs : list value) :
  window ≠ [] -> Forall numeric vs ->
  exists vs', smooth_values window vs = Ok vs' /\ length vs' = length vs.
Proof.
  intros Hw Hvs. unfold smooth_values.
  destruct (mapM_as_float_numeric vs Hvs) as (xs & Hm & Hxs).
  destruct (convolve_same_length xs window Hw) as (c & Hcs & Hc).
  rewrite Hm, bind_Ok, Hcs, bind_Ok.
  eexists. split; [reflexivity |]. by rewrite length_fmap, Hc.
Qed.

Lemma series_get_Some (properties : series) (key : string) (l : list value) :
  properties !! key = Some l -> series_get properties key = Ok l.
Proof. intros H. unfold series_get. by rewrite H. Qed.

(** A loop that replaces [properties[name]] by [f properties[name]] for each
    of a list of distinct names. *)
Lemma for_each_update (f : list value -> result (list value)) (names : list string)
    (properties : series) :
  NoDup names ->
  (forall name, name ∈ names ->
     exists vs vs', properties !! name = Some vs /\ f vs = Ok vs') ->
  exists properties' : series,
    for_each names
      (fun name (p : series) =>
         vs ← series_get p name; vs' ← f vs; mret (<[name := vs']> p))
      properties = Ok properties' /\
    (forall name vs, name ∈ names -> properties !! name = Some vs ->
       exists vs', f vs = Ok vs' /\ properties' !! name = Some vs') /\
    (forall k, k ∉ names -> properties' !! k = properties !! k).
Proof.
  intros Hnd. revert properties.
  induction Hnd as [| name names Hnotin Hnd IH]; intros properties Hall.
  - exists properties. split; [done |]. split; [| done].
    intros name vs Hin. by apply elem_of_nil in Hin.
  - destruct (Hall name) as (vs & vs' & Hvs & Hf); [by left |].
    destruct (IH (<[name := vs']> properties)) as (p' & Hp' & Hin' & Hout').
    { intros name' Hin. destruct (Hall name') as (ws & ws' & Hws & Hfw); [by right |].
      exists ws, ws'. split; [| done].
      rewrite lookup_insert_ne; [done |]. intros ->. done. }
    exists p'. split.
    { cbn [for_each]. rewrite (series_get_Some _ _ _ Hvs), bind_Ok, Hf, !bind_Ok.
      exact Hp'. }
    split.
    + intros name' ws Hin Hws. apply elem_of_cons in Hin as [-> | Hin].
      * rewrite Hvs in Hws. injection Hws as <-. exists vs'. split; [done |].
        rewrite Hout' by done. apply lookup_insert_eq.
      * apply Hin'; [done |]. rewrite lookup_insert_ne; [done |]. by intros ->.
    + intros k Hk. apply not_elem_of_cons in Hk as [Hk1 Hk2].
      rewrite Hout' by done. by rewrite lookup_insert_ne.
Qed.

Lemma NoDup_property_list : NoDup property_list.
Proof. by apply (bool_decide_unpack _). Qed.

Lemma hann_length_eq (hann_coeff : nat -> nat -> Q) (M : float) (n : nat) :
  hann_length M = Ok n ->
  hann hann_coeff M = Ok (hann_coeff n <$> seq 0 n).
Proof. intros H. unfold hann. by rewrite H. Qed.

(** C8 (amended). For a non-zero smoothing factor the window is
    [hann(smooth_factor / mean(progressive_length))]: its length depends on
    that quotient alone and is clamped neither from below nor by the length
    of the series. Whenever the window is not empty, smoothing succeeds and
    each property's series keeps its number of samples; the other series are
    untouched. *)
Theorem smooth_same_length (hann_coeff : nat -> nat -> Q) (properties : series)
    (smooth_factor : Q) (centerline : Centerline) (n : nat) :
  ~ (smooth_factor == 0)%Q ->
  window_length smooth_factor centerline = Ok n ->
  n ≠ 0%nat ->
  (forall name, name ∈ property_list ->
     exists vs, properties !! name = Some vs /\ Forall numeric vs) ->
  exists (window : list Q) (properties' : series),
    hann hann_coeff (np_div (Finite smooth_factor)
                            (np_mean_Q (progressive_length centerline))) = Ok window /\
    length window = n /\
    smooth hann_coeff properties smooth_factor centerline = Ok properties' /\
    (forall name vs, name ∈ property_list -> properties !! name = Some vs ->
       exists vs', properties' !! name = Some vs' /\ length vs' = length vs) /\
    (forall k, k ∉ property_list -> properties' !! k = properties !! k).
Proof.
  intros Hsf Hn Hn0 Hnum.
  set (window := hann_coeff n <$> seq 0 n).
  assert (Hw : window ≠ []).
  { intros Hnil. apply (f_equal length) in Hnil.
    unfold window in Hnil. rewrite length_fmap, length_seq in Hnil. done. }
  destruct (for_each_update (smooth_values window) property_list properties
              NoDup_property_list) as (p' & Hp' & Hin & Hout).
  { intros name Hname. destruct (Hnum name Hname) as (vs & Hvs & Hvn).
    destruct (smooth_values_length window vs Hw Hvn) as (vs' & Hs & _).
    by exists vs, vs'. }
  exists window, p'. split; [by apply hann_length_eq |].
  split; [unfold window; by rewrite length_fmap, length_seq |].
  split.
  { unfold smooth.
    assert (E : Qeq_bool smooth_factor 0 = false).
    { apply not_true_iff_false. by rewrite Qeq_bool_iff. }
    rewrite E. cbn [negb].
    rewrite (hann_length_eq hann_coeff _ n Hn), bind_Ok. exact Hp'. }
  split; [| exact Hout].
  intros name vs Hname Hvs.
  destruct (Hin name vs Hname Hvs) as (vs' & Hs & Hl).
  exists vs'. split; [exact Hl |].
  destruct (Hnum name Hname) as (ws & Hws & Hwn).
  rewrite Hvs in Hws. injection Hws as <-.
  destruct (smooth_values_length window vs Hw Hwn) as (vs'' & Hs' & Hlen).
  rewrite Hs in Hs'. by injection Hs' as <-.
Qed.

Lemma sample_series_lookup (z : list Z) (xs : list float) (name : string) :
  name ∈ property_list ->
  sample_series z xs !! name = Some (VFloat <$> xs).
Proof.
  intros Hin. unfold property_list in Hin.
  repeat (apply elem_of_cons in Hin as [-> | Hin]; [reflexivity |]).
  by apply elem_of_nil in Hin.
Qed.

Lemma Forall_numeric_VFloat (xs : list float) : Forall numeric (VFloat <$> xs).
Proof. apply Forall_fmap, Forall_forall. by intros x _. Qed.

Lemma smooth_same_length_witness :
  exists properties' : series,
    smooth flat_coeff (sample_series [5; 5; 6]%Z [Finite 1; Finite 2; Finite 3]) 2
      sample_centerline = Ok properties' /\
    exists vs', properties' !! "area" = Some vs' /\ length vs' = 3%nat.
Proof.
  destruct (smooth_same_length flat_coeff
              (sample_series [5; 5; 6]%Z [Finite 1; Finite 2; Finite 3]) 2
              sample_centerline 2)
    as (window & p' & _ & _ & Hs & Hlen & _).
  - by vm_compute.
  - by vm_compute.
  - done.
  - intros name Hname. eexists. split; [by apply sample_series_lookup |].
    apply Forall_numeric_VFloat.
  - exists p'. split; [exact Hs |].
    destruct (Hlen "area" (VFloat <$> [Finite 1; Finite 2; Finite 3]))
      as (vs' & Hvs' & Hl); [apply elem_of_cons; by left | reflexivity |].
    by exists vs'.
Defined.

(** C8, as stated, fails: the window length is not clamped. With 1 mm between
    the points, a smoothing factor of 5 mm gives a window of 5 samples for the
    series of 3 samples built from a centerline of 3 points, and a factor of
    0.5 mm gives an empty window. *)
Lemma window_length_counterexample :
  match for_each (points sample_centerline)
          (loop_body insertion_argsort cos45 sin45 false)
          (init_properties, ∅, []) with
  | Ok (properties, _, _) => length <$> properties !! "area"
  | Raise _ => None
  end = Some 3%nat /\
  window_length 5 sample_centerline = Ok 5%nat /\
  window_length (1 # 2) sample_centerline = Ok 0%nat.
Proof. repeat split; by vm_compute. Qed.

(** ** Averaging per slice *)

Lemma py_in_VInt (x : Z) (acc : list Z) :
  py_in (VInt x) (VInt <$> acc) = bool_decide (x ∈ acc).
Proof.
  unfold py_in. induction acc as [| y acc IH]; [done |].
  cbn [fmap list_fmap existsb py_eq]. fold (VInt <$> acc). rewrite IH.
  destruct (Z.eqb_spec x y) as [-> | Hne].
  - symmetry. apply bool_decide_eq_true. by left.
  - simpl. apply bool_decide_ext. rewrite elem_of_cons. tauto.
Qed.

Lemma sorting_values_of_acc (acc z : list Z) :
  foldl (fun sorting_values label =>
           if negb (py_in label sorting_values)
           then sorting_values ++ [label] else sorting_values)
        (VInt <$> acc) (VInt <$> z)
  = VInt <$> (acc ++ filter (fun y => y ∉ acc) (first_seen z)).
Proof.
  revert acc. induction z as [| x z IH]; intros acc.
  - cbn. by rewrite app_nil_r.
  - cbn [fmap list_fmap foldl first_seen]. fold (VInt <$> z).
    rewrite py_in_VInt. destruct (decide (x ∈ acc)) as [Hin | Hnin].
    + rewrite bool_decide_true by done. cbn [negb]. rewrite IH.
      rewrite filter_cons_False by (intros Hn; by apply Hn).
      rewrite list_filter_filter. f_equal. f_equal.
      apply list_filter_iff. intros y. split; [| by intros [? _]].
      intros Hy. split; [done |]. by intros ->.
    + rewrite bool_decide_false by done. cbn [negb].
      change [VInt x] with (VInt <$> [x]). rewrite <- fmap_app, IH.
      rewrite filter_cons_True by done.
      rewrite list_filter_filter, <- app_assoc. f_equal. f_equal. cbn [app]. f_equal.
      apply list_filter_iff. intros y. rewrite not_elem_of_app, list_elem_of_singleton.
      tauto.
Qed.

(** The labels kept are the distinct labels in the order of their first
    occurrence. *)
Lemma sorting_values_of_first_seen (z : list Z) :
  sorting_values_of (VInt <$> z) = VInt <$> first_seen z.
Proof.
  unfold sorting_values_of. etrans; [apply (sorting_values_of_acc [] z) |]. cbn [app].
  f_equal. induction (first_seen z) as [| y l IH]; [done |].
  rewrite filter_cons_True by apply not_elem_of_nil. by rewrite IH.
Qed.

Lemma elem_of_first_seen (z : list Z) (x : Z) : x ∈ first_seen z <-> x ∈ z.
Proof.
  induction z as [| y z IH]; [done |].
  cbn [first_seen]. rewrite !elem_of_cons, list_elem_of_filter, IH.
  destruct (decide (x = y)); tauto.
Qed.

Lemma NoDup_first_seen (z : list Z) : NoDup (first_seen z).
Proof.
  induction z as [| y z IH]; [constructor |].
  cbn [first_seen]. constructor; [| by apply NoDup_filter].
  rewrite list_elem_of_filter. by intros [Hne _].
Qed.

Lemma items_of_label_spec (pre z : list Z) (xs : list float) (label : Z) :
  (length xs <= length z)%nat ->
  items_of_label (zip (seq (length pre) (length xs)) (VFloat <$> xs))
                 (VInt <$> (pre ++ z)) (VInt label)
  = Ok (VFloat <$> slice_values z xs label).
Proof.
  revert pre z. induction xs as [| x xs IH]; intros pre z Hlen.
  - by destruct z.
  - destruct z as [| zi z]; [simpl in Hlen; lia |].
    cbn [length seq fmap list_fmap zip zip_with items_of_label].
    fold (VFloat <$> xs). fold (zip (seq (S (length pre)) (length xs)) (VFloat <$> xs)).
    assert (Hget : list_get (VInt <$> (pre ++ zi :: z)) (length pre) = Ok (VInt zi)).
    { unfold list_get. rewrite list_lookup_fmap, lookup_app_r by lia.
      by rewrite Nat.sub_diag. }
    rewrite Hget, bind_Ok.
    specialize (IH (pre ++ [zi]) z). rewrite length_app, <- app_assoc in IH.
    cbn [length app] in IH. rewrite Nat.add_1_r in IH.
    rewrite IH by (simpl in Hlen; lia). rewrite bind_Ok.
    cbn [py_eq slice_values mret result_ret]. f_equal.
    destruct (Z.eqb_spec zi label) as [-> | Hne].
    + by rewrite decide_True.
    + by rewrite decide_False.
Qed.

Lemma mapM_as_float_VFloat (xs : list float) : mapM as_float (VFloat <$> xs) = Ok xs.
Proof. induction xs as [| x xs IH]; [done |]. cbn. fold (VFloat <$> xs). by rewrite IH. Qed.

Lemma np_mean_VFloat (xs : list float) :
  np_mean (VFloat <$> xs) = Ok (arithmetic_mean xs).
Proof.
  unfold np_mean. rewrite mapM_as_float_VFloat, bind_Ok.
  by destruct xs.
Qed.

(** The value appended for a label is the arithmetic mean of the samples of
    the series that carry this label. *)
Lemma mean_of_label_spec (properties : series) (name : string) (z : list Z)
    (xs : list float) (label : Z) :
  properties !! "z_slice" = Some (VInt <$> z) ->
  properties !! name = Some (VFloat <$> xs) ->
  (length xs <= length z)%nat ->
  mean_of_label properties name (VInt label)
  = Ok (arithmetic_mean (slice_values z xs label)).
Proof.
  intros Hz Hxs Hlen. unfold mean_of_label.
  rewrite (series_get_Some _ _ _ Hxs), bind_Ok, (series_get_Some _ _ _ Hz), bind_Ok.
  unfold enumerate. rewrite length_fmap.
  pose proof (items_of_label_spec [] z xs label Hlen) as Hi.
  cbn [length app] in Hi. rewrite Hi, bind_Ok.
  apply np_mean_VFloat.
Qed.

(** *** The ordered dictionary *)

Lemma od_set_fresh (od : odict) (k : string) (v : list float) :
  k ∉ od.*1 -> od_set od k v = od ++ [(k, v)].
Proof.
  induction od as [| [k' v'] od IH]; intros Hk; [done |].
  cbn [fmap list_fmap fst] in Hk. apply not_elem_of_cons in Hk as [Hne Hk].
  cbn [od_set app]. rewrite decide_False by done. by rewrite IH.
Qed.

Lemma od_append_last (od : odict) (k : string) (l : list float) (x : float) :
  k ∉ od.*1 -> od_append (od ++ [(k, l)]) k x = Ok (od ++ [(k, l ++ [x])]).
Proof.
  induction od as [| [k' v'] od IH]; intros Hk.
  - cbn. by rewrite decide_True.
  - cbn [fmap list_fmap fst] in Hk. apply not_elem_of_cons in Hk as [Hne Hk].
    cbn [od_append app]. rewrite decide_False by done. by rewrite IH.
Qed.

Lemma od_append_keys (od od' : odict) (k : string) (x : float) :
  od_append od k x = Ok od' -> od'.*1 = od.*1.
Proof.
  revert od'. induction od as [| [k' v'] od IH]; intros od' H; [done |].
  cbn [od_append] in H. destruct (decide (k' = k)).
  - by injection H as <-.
  - apply bind_inv in H as (od'' & Hod'' & H). injection H as <-.
    cbn. f_equal. by apply IH.
Qed.

Lemma od_set_keys (od : odict) (k : string) (v : list float) :
  k ∉ od.*1 -> (od_set od k v).*1 = od.*1 ++ [k].
Proof. intros Hk. rewrite od_set_fresh by done. by rewrite fmap_app. Qed.

Lemma od_get_app_fresh (od od' : odict) (k : string) :
  k ∉ od.*1 -> od_get (od ++ od') k = od_get od' k.
Proof.
  induction od as [| [k' v'] od IH]; intros Hk; [done |].
  cbn [fmap list_fmap fst] in Hk. apply not_elem_of_cons in Hk as [Hne Hk].
  cbn [od_get app]. rewrite decide_False by done. by apply IH.
Qed.

Lemma od_get_fmap (G : string -> list float) (names : list string) (k : string) :
  k ∈ names -> od_get ((fun name => (name, G name)) <$> names) k = Some (G k).
Proof.
  induction names as [| name names IH]; intros Hk; [by apply elem_of_nil in Hk |].
  cbn [fmap list_fmap od_get]. destruct (decide (name = k)) as [-> | Hne]; [done |].
  apply elem_of_cons in Hk as [-> | Hk]; [done | by apply IH].
Qed.

(** *** The two loops of lines 301-306 *)

Lemma inner_loop_keys (g : value -> result float) (k : string) (labels : list value)
    (od od' : odict) :
  for_each labels (fun label od => m ← g label; od_append od k m) od = Ok od' ->
  od'.*1 = od.*1.
Proof.
  revert od. induction labels as [| label labels IH]; intros od H.
  - by injection H as <-.
  - cbn [for_each] in H. apply bind_inv in H as (od1 & H1 & H).
    apply bind_inv in H1 as (m & _ & H1).
    rewrite (IH _ H). by eapply od_append_keys.
Qed.

Lemma inner_loop_values (g : value -> result float) (f : value -> float) (k : string)
    (labels : list value) (od : odict) (l : list float) :
  k ∉ od.*1 ->
  (forall label, label ∈ labels -> g label = Ok (f label)) ->
  for_each labels (fun label od => m ← g label; od_append od k m) (od ++ [(k, l)])
  = Ok (od ++ [(k, l ++ (f <$> labels))]).
Proof.
  intros Hk. revert l. induction labels as [| label labels IH]; intros l Hg.
  - cbn. by rewrite app_nil_r.
  - cbn [for_each]. rewrite Hg by (by left). rewrite bind_Ok.
    rewrite od_append_last by done. rewrite bind_Ok.
    rewrite IH by (intros; apply Hg; by right).
    cbn [fmap list_fmap]. by rewrite <- app_assoc.
Qed.

Lemma average_loop_keys (properties : series) (labels : list value)
    (names : list string) (od od' : odict) :
  NoDup (od.*1 ++ names) ->
  for_each names
    (fun property_name averaged_shape =>
       let averaged_shape := od_set averaged_shape property_name [] in
       for_each labels
         (fun label averaged_shape =>
            m ← mean_of_label properties property_name label;
            od_append averaged_shape property_name m)
         averaged_shape)
    od = Ok od' ->
  od'.*1 = od.*1 ++ names.
Proof.
  revert od. induction names as [| name names IH]; intros od Hnd H.
  - injection H as <-. by rewrite app_nil_r.
  - cbn [for_each] in H. apply bind_inv in H as (od1 & H1 & H).
    cbv zeta in H1. apply inner_loop_keys in H1.
    assert (Hfresh : name ∉ od.*1).
    { apply NoDup_app in Hnd as (_ & Hd & _). intros Hin.
      apply (Hd name Hin). by left. }
    rewrite od_set_keys in H1 by done.
    rewrite (IH od1); [by rewrite H1, <- app_assoc | | exact H].
    rewrite H1, <- app_assoc. exact Hnd.
Qed.

Lemma average_loop_values (properties : series) (labels : list value)
    (names : list string) (od : odict) :
  NoDup (od.*1 ++ names) ->
  (forall name label, name ∈ names -> label ∈ labels ->
     exists m, mean_of_label properties name label = Ok m) ->
  for_each names
    (fun property_name averaged_shape =>
       let averaged_shape := od_set averaged_shape property_name [] in
       for_each labels
         (fun label averaged_shape =>
            m ← mean_of_label properties property_name label;
            od_append averaged_shape property_name m)
         averaged_shape)
    od
  = Ok (od ++ ((fun name => (name, mean_or_nan properties name <$> labels)) <$> names)).
Proof.
  revert od. induction names as [| name names IH]; intros od Hnd Hm.
  - cbn. by rewrite app_nil_r.
  - assert (Hfresh : name ∉ od.*1).
    { apply NoDup_app in Hnd as (_ & Hd & _). intros Hin.
      apply (Hd name Hin). by left. }
    cbn [for_each]. cbv zeta. rewrite od_set_fresh by done.
    rewrite (inner_loop_values _ (mean_or_nan properties name)) by
      (done || (intros label Hl; destruct (Hm name label) as [m Hmm];
                [by left | done |]; unfold mean_or_nan; by rewrite Hmm)).
    rewrite bind_Ok. cbn [app].
    rewrite IH.
    + cbn [fmap list_fmap]. by rewrite <- app_assoc.
    + rewrite fmap_app, <- app_assoc. exact Hnd.
    + intros name' label Hn Hl. apply Hm; [by right | done].
Qed.

Lemma average_spec (properties : series) (z labels : list Z) :
  properties !! "z_slice" = Some (VInt <$> z) ->
  (forall name, name ∈ property_list ->
     exists xs, properties !! name = Some (VFloat <$> xs) /\ length xs = length z) ->
  exists od : odict,
    average properties (VInt <$> labels) = Ok od /\
    od.*1 = property_list /\
    forall name xs, name ∈ property_list ->
      properties !! name = Some (VFloat <$> xs) ->
      od_get od name
      = Some ((fun label => arithmetic_mean (slice_values z xs label)) <$> labels).
Proof.
  intros Hz Hser.
  assert (Hmean : forall name xs label, name ∈ property_list ->
            properties !! name = Some (VFloat <$> xs) ->
            mean_of_label properties name (VInt label)
            = Ok (arithmetic_mean (slice_values z xs label))).
  { intros name xs label Hname Hxs.
    destruct (Hser name Hname) as (xs' & Hxs' & Hlen).
    apply (mean_of_label_spec properties name z xs label Hz Hxs).
    rewrite Hxs in Hxs'. injection Hxs' as Heq.
    apply (f_equal length) in Heq. rewrite !length_fmap in Heq. lia. }
  eexists. split.
  { unfold average. apply (average_loop_values properties (VInt <$> labels) property_list []).
    - apply NoDup_property_list.
    - intros name label Hname Hlabel.
      apply list_elem_of_fmap in Hlabel as (lz & -> & _).
      destruct (Hser name Hname) as (xs & Hxs & _).
      eexists. by apply (Hmean name xs lz). }
  cbn [app]. split.
  { rewrite <- list_fmap_compose. apply list_fmap_id. }
  intros name xs Hname Hxs.
  rewrite (od_get_fmap (fun name => mean_or_nan properties name <$> (VInt <$> labels)))
    by done.
  f_equal. rewrite <- list_fmap_compose. apply list_fmap_ext. intros i label _.
  unfold compose, mean_or_nan. by rewrite (Hmean name xs label Hname Hxs).
Qed.

(** C3. The labels of the output are the distinct labels of [z_slice] in the
    order in which they are first seen, not in numeric order, and for every
    property the value at a label is the arithmetic mean of the samples whose
    [z_slice] is that label. For z_slice = [5,5,6,6,5,7] the order is [5,6,7]
    and the value for 5 is the mean of the samples at indices 0, 1 and 4. *)
Theorem average_first_seen_means (properties : series) (z : list Z) :
  properties !! "z_slice" = Some (VInt <$> z) ->
  (forall name, name ∈ property_list ->
     exists xs, properties !! name = Some (VFloat <$> xs) /\ length xs = length z) ->
  sorting_values_of (VInt <$> z) = VInt <$> first_seen z /\
  NoDup (first_seen z) /\
  (forall label, label ∈ first_seen z <-> label ∈ z) /\
  (exists od : odict,
     average properties (sorting_values_of (VInt <$> z)) = Ok od /\
     od.*1 = property_list /\
     forall name xs, name ∈ property_list ->
       properties !! name = Some (VFloat <$> xs) ->
       od_get od name
       = Some ((fun label => arithmetic_mean (slice_values z xs label))
                 <$> first_seen z)) /\
  first_seen [5; 5; 6; 6; 5; 7]%Z = [5; 6; 7]%Z /\
  first_seen [7; 5; 7]%Z = [7; 5]%Z /\
  forall x0 x1 x2 x3 x4 x5 : float,
    slice_values [5; 5; 6; 6; 5; 7]%Z [x0; x1; x2; x3; x4; x5] 5 = [x0; x1; x4].
Proof.
  intros Hz Hser.
  split; [apply sorting_values_of_first_seen |].
  split; [apply NoDup_first_seen |].
  split; [intros label; apply elem_of_first_seen |].
  split; [| by repeat split].
  rewrite sorting_values_of_first_seen. by apply average_spec.
Qed.

Lemma average_first_seen_means_witness :
  exists od : odict,
    average (sample_series [5; 5; 6; 6; 5; 7]%Z
               (Finite <$> [1; 2; 3; 4; 5; 6]%Q))
            (sorting_values_of (VInt <$> [5; 5; 6; 6; 5; 7]%Z)) = Ok od /\
    od_get od "area"
    = Some [arithmetic_mean [Finite 1; Finite 2; Finite 5];
            arithmetic_mean [Finite 3; Finite 4];
            arithmetic_mean [Finite 6]].
Proof.
  destruct (average_first_seen_means
              (sample_series [5; 5; 6; 6; 5; 7]%Z (Finite <$> [1; 2; 3; 4; 5; 6]%Q))
              [5; 5; 6; 6; 5; 7]%Z)
    as (_ & _ & _ & (od & Hav & _ & Hget) & _).
  - reflexivity.
  - intros name Hname. eexists. split; [by apply sample_series_lookup | done].
  - exists od. split; [exact Hav |].
    rewrite (Hget "area" (Finite <$> [1; 2; 3; 4; 5; 6]%Q));
      [reflexivity | apply elem_of_cons; by left | reflexivity].
Defined.

(** C4. With [smooth_factor = 0] the smoothing step is skipped, whatever the
    window function and the centerline: the series are left as they are, and
    each value of the result is the arithmetic mean of the samples of the
    series mapped to that slice. *)
Theorem finalize_no_smoothing (hann_coeff : nat -> nat -> Q) (properties : series)
    (centerline : Centerline) (z : list Z) :
  properties !! "z_slice" = Some (VInt <$> z) ->
  (forall name, name ∈ property_list ->
     exists xs, properties !! name = Some (VFloat <$> xs) /\ length xs = length z) ->
  smooth hann_coeff properties 0 centerline = Ok properties /\
  exists od : odict,
    finalize hann_coeff properties 0 centerline = Ok od /\
    od.*1 = property_list /\
    forall name xs, name ∈ property_list ->
      properties !! name = Some (VFloat <$> xs) ->
      od_get od name
      = Some ((fun label => arithmetic_mean (slice_values z xs label))
                <$> first_seen z).
Proof.
  intros Hz Hser. split; [reflexivity |].
  destruct (average_spec properties z (first_seen z) Hz Hser) as (od & Hav & Hkeys & Hget).
  exists od. split; [| by split].
  unfold finalize.
  change (smooth hann_coeff properties 0 centerline) with (Ok properties : result series).
  rewrite bind_Ok, (series_get_Some _ _ _ Hz), bind_Ok.
  by rewrite sorting_values_of_first_seen.
Qed.

Lemma finalize_no_smoothing_witness :
  exists od : odict,
    finalize flat_coeff
      (sample_series [5; 5; 6]%Z [Finite 1; Finite 2; Finite 3]) 0 sample_centerline
      = Ok od /\
    od_get od "symmetry"
    = Some [arithmetic_mean [Finite 1; Finite 2]; arithmetic_mean [Finite 3]].
Proof.
  destruct (finalize_no_smoothing flat_coeff
              (sample_series [5; 5; 6]%Z [Finite 1; Finite 2; Finite 3])
              sample_centerline [5; 5; 6]%Z)
    as (_ & od & Hfin & _ & Hget).
  - reflexivity.
  - intros name Hname. eexists. split; [by apply sample_series_lookup | done].
  - exists od. split; [exact Hfin |].
    rewrite (Hget "symmetry" [Finite 1; Finite 2; Finite 3]);
      [reflexivity | | reflexivity].
    unfold property_list. rewrite !elem_of_cons. tauto.
Defined.

(** C10. When the function returns, the list of names it returns and the keys
    of the returned ordered dictionary are the nine property names, in the
    order of [property_list]; none of the four auxiliary series is a key of
    the result. *)
Theorem returned_names (np_argsort : list Z -> list nat)
    (math_cos math_sin : Q -> Q) (hann_coeff : nat -> nat -> Q)
    (centerline : Centerline) (fname_discs : bool)
    (smooth_factor : Q) (names : list string) (averaged_shape : odict)
    (out : list Z) :
  compute_properties_along_centerline np_argsort math_cos math_sin hann_coeff
    centerline fname_discs smooth_factor = Ok (names, averaged_shape, out) ->
  names = [ "area"; "equivalent_diameter"; "AP_diameter"; "RL_diameter";
            "ratio_minor_major"; "eccentricity"; "solidity"; "orientation";
            "symmetry" ] /\
  fst <$> averaged_shape = names /\
  forall aux,
    aux ∈ ["incremental_length"; "z_slice"; "distance_from_C1"; "vertebral_level"] ->
    (aux ∉ fst <$> averaged_shape) /\ od_get averaged_shape aux = None.
Proof.
  intros H. unfold compute_properties_along_centerline in H.
  apply bind_inv in H as ([[properties h] out'] & _ & H).
  apply bind_inv in H as (od & Hfin & H). injection H as <- <- <-.
  unfold finalize in Hfin.
  apply bind_inv in Hfin as (properties' & _ & Hfin).
  apply bind_inv in Hfin as (z_slice & _ & Hav).
  apply (average_loop_keys properties' _ property_list [] od NoDup_property_list) in Hav.
  cbn [fmap list_fmap app] in Hav.
  split; [reflexivity |]. split; [exact Hav |].
  assert (Hnone : forall k, k ∉ od.*1 -> od_get od k = None).
  { clear. induction od as [| [k' v'] od IH]; intros k Hk; [done |].
    cbn [fmap list_fmap fst] in Hk. apply not_elem_of_cons in Hk as [Hne Hk].
    cbn [od_get]. rewrite decide_False by done. by apply IH. }
  intros aux Haux.
  assert (Hk : aux ∉ od.*1).
  { rewrite Hav. unfold property_list.
    rewrite !elem_of_cons, elem_of_nil in Haux. rewrite !elem_of_cons, elem_of_nil.
    intros Hin. destruct Haux as [-> | [-> | [-> | [-> | []]]]];
      repeat (destruct Hin as [Hin | Hin]; [discriminate |]); done. }
  split; [exact Hk | by apply Hnone].
Qed.

Lemma returned_names_witness :
  exists (averaged_shape : odict) (out : list Z),
    compute_properties_along_centerline insertion_argsort cos45 sin45 flat_coeff
      sample_centerline false 0 = Ok (property_list, averaged_shape, out) /\
    averaged_shape.*1 = property_list.
Proof.
  destruct (compute_properties_along_centerline insertion_argsort cos45 sin45
              flat_coeff sample_centerline false 0) as [[[names od] out] | e] eqn:E.
  - destruct (returned_names _ _ _ _ _ _ _ _ _ _ E) as (-> & Hkeys & _). clear E.
    exists od, out. split; [reflexivity | exact Hkeys].
  - vm_compute in E. discriminate E.
Defined.

(** * Further properties of the shape functions *)

(** ** [assign_AP_and_RL_diameter] *)

(** X1. Calling the function a second time on the object it returned changes
    nothing: the two keys it writes are not among those it reads. *)
Theorem assign_AP_and_RL_diameter_idempotent (h : heap) (l : loc) (d : dict)
    (o major minor : value) (x : float) :
  h !! l = Some d ->
  d !! "orientation" = Some o -> as_float o = Ok x ->
  d !! "major_axis_length" = Some major ->
  d !! "minor_axis_length" = Some minor ->
  exists h' : heap,
    assign_AP_and_RL_diameter (PyDict l) h = Ok (PyDict l, h') /\
    assign_AP_and_RL_diameter (PyDict l) h' = Ok (PyDict l, h').
Proof.
  intros Hl Ho Hx Hma Hmi.
  eexists. split.
  { by apply (assign_AP_and_RL_diameter_eq h l d o major minor x). }
  set (rl := if in_range x then major else minor).
  set (ap := if in_range x then minor else major).
  rewrite (assign_AP_and_RL_diameter_eq _ l
             (<["AP_diameter" := ap]> (<["RL_diameter" := rl]> d)) o major minor x);
    [| apply lookup_insert_eq | by rewrite !lookup_insert_ne | done
     | by rewrite !lookup_insert_ne | by rewrite !lookup_insert_ne].
  fold rl ap. rewrite (insert_insert_eq h l). do 3 f_equal.
  apply map_eq. intros k. rewrite !lookup_insert.
  by repeat case_decide.
Qed.

Lemma assign_AP_and_RL_diameter_idempotent_witness :
  exists h' : heap,
    assign_AP_and_RL_diameter (PyDict 1) {[ 1%positive := sample_dict 10 ]}
      = Ok (PyDict 1, h') /\
    assign_AP_and_RL_diameter (PyDict 1) h' = Ok (PyDict 1, h').
Proof.
  apply (assign_AP_and_RL_diameter_idempotent _ 1 (sample_dict 10)
           (VFloat (Finite 10)) (VFloat (Finite 3)) (VFloat (Finite 2)) (Finite 10));
    reflexivity.
Defined.

(** X2. The function reads three keys and none is optional: it raises
    [KeyError] when the dictionary has no orientation, and also when the
    orientation is a number but one of the two axis lengths is missing. *)
Theorem assign_AP_and_RL_diameter_missing_key (h : heap) (l : loc) (d : dict) :
  h !! l = Some d ->
  d !! "orientation" = None \/
  ((exists o x, d !! "orientation" = Some o /\ as_float o = Ok x) /\
   (d !! "major_axis_length" = None \/ d !! "minor_axis_length" = None)) ->
  assign_AP_and_RL_diameter (PyDict l) h = Raise KeyError.
Proof.
  intros Hl Hcases.
  assert (Hget : forall key, d !! key = None -> getitem (PyDict l) key h = Raise KeyError).
  { intros key Hk. unfold getitem. by rewrite Hl, Hk. }
  destruct Hcases as [Ho | [(o & x & Ho & Hx) Hmiss]]; unfold assign_AP_and_RL_diameter.
  - by rewrite (Hget _ Ho).
  - rewrite (getitem_dict h l d _ o Hl Ho), bind_Ok.
    unfold chained_lt. rewrite Hx, bind_Ok.
    assert (Hc : exists c : bool,
              (match x with
               | Finite q => Ok (Qltb (-45) q && Qltb q 45)
               | NaN => Ok false
               end : result bool) = Ok c) by (destruct x; by eexists).
    destruct Hc as [c ->]. rewrite bind_Ok.
    destruct (d !! "major_axis_length") as [ma |] eqn:Hma;
      destruct (d !! "minor_axis_length") as [mi |] eqn:Hmi;
      try (by destruct Hmiss).
    + destruct c.
      * rewrite (getitem_dict h l d _ ma Hl Hma), bind_Ok.
        rewrite (setitem_dict h l d _ _ Hl), bind_Ok.
        unfold getitem. rewrite lookup_insert_eq, lookup_insert_ne by done.
        by rewrite Hmi.
      * by rewrite (Hget _ Hmi).
    + destruct c.
      * by rewrite (Hget _ Hma).
      * rewrite (getitem_dict h l d _ mi Hl Hmi), bind_Ok.
        rewrite (setitem_dict h l d _ _ Hl), bind_Ok.
        unfold getitem. rewrite lookup_insert_eq, lookup_insert_ne by done.
        by rewrite Hma.
    + destruct c; [by rewrite (Hget _ Hma) | by rewrite (Hget _ Hmi)].
Qed.

Lemma assign_AP_and_RL_diameter_missing_key_witness :
  assign_AP_and_RL_diameter (PyDict 1)
    {[ 1%positive := delete "minor_axis_length" (sample_dict 10) ]} = Raise KeyError.
Proof.
  apply (assign_AP_and_RL_diameter_missing_key _ 1
           (delete "minor_axis_length" (sample_dict 10))); [reflexivity |].
  right. split; [by exists (VFloat (Finite 10)), (Finite 10) | by right].
Defined.

(** ** [properties2d] *)

Lemma Ok_inj {A} (a b : A) : Ok a = Ok b -> a = b.
Proof. congruence. Qed.

(** What a successful call on a patch with regions went through, and the
    dictionary it built. *)
Lemma properties2d_success (np_argsort : list Z -> list nat)
    (math_cos math_sin : Q -> Q) (image : Image) (resolution : option (Q * Q))
    (h h' : heap) (o : pyobj) :
  regionprops image ≠ [] ->
  properties2d np_argsort math_cos math_sin image resolution h = Ok (o, h') ->
  exists r ratio area diameter major_l minor_l size_grid sq dice (d : dict),
    sc_region_of np_argsort (regionprops image) = Ok r /\
    ratio_minor_major r = Ok ratio /\
    scaled resolution r = Ok (area, diameter, major_l, minor_l, size_grid) /\
    resampled_square math_cos math_sin image (sk.centroid r).2 (sk.centroid r).1
      (sk.orientation r) size_grid = Ok sq /\
    dice_symmetry sq = Ok dice /\
    (o, h') = new_dict d h /\
    dom d = list_to_set properties2d_keys /\
    d !! "major_axis_length" = Some (VFloat (Finite major_l)) /\
    d !! "minor_axis_length" = Some (VFloat (Finite minor_l)) /\
    d !! "orientation" = Some (VFloat (Finite (sk.orientation r * 180 / math_pi))) /\
    d !! "ratio_minor_major" = Some (VFloat (Finite ratio)) /\
    d !! "symmetry" = Some (VFloat dice) /\
    d !! "area" = Some area /\
    d !! "equivalent_diameter" = Some (VFloat (Finite diameter)) /\
    d !! "eccentricity" = Some (VFloat (Finite (sk.eccentricity r))) /\
    d !! "solidity" = Some (VFloat (Finite (sk.solidity r))).
Proof.
  intros Hne H. unfold properties2d in H.
  rewrite bool_decide_true in H by (by destruct (regionprops image)).
  apply bind_inv in H as (r & Hr & H).
  apply bind_inv in H as (ratio & Hratio & H).
  apply bind_inv in H as ([[[[area diameter] major_l] minor_l] size_grid] & Hsc & H).
  destruct (sk.centroid r) as [y0 x0] eqn:Hc.
  apply bind_inv in H as (sq & Hsq & H).
  apply bind_inv in H as (dice & Hdice & H).
  apply Ok_inj in H.
  eexists r, ratio, area, diameter, major_l, minor_l, size_grid, sq, dice, _.
  split; [exact Hr |]. split; [exact Hratio |]. split; [exact Hsc |].
  split; [rewrite Hc; exact Hsq |]. split; [exact Hdice |].
  split; [symmetry; exact H |].
  split; [by rewrite dom_list_to_map_L |].
  repeat split; reflexivity.
Qed.

(** X3. The function returns [None] exactly when the patch has no region, and
    then the heap is as it was. Otherwise it returns a new dictionary object:
    its location was free, every object of the heap is left as it was, and
    its keys are the seventeen names of the display, [RL_diameter] and
    [AP_diameter] not among them. *)
Theorem properties2d_returns (np_argsort : list Z -> list nat)
    (math_cos math_sin : Q -> Q) (image : Image) (resolution : option (Q * Q))
    (h h' : heap) (o : pyobj) :
  properties2d np_argsort math_cos math_sin image resolution h = Ok (o, h') ->
  (o = PyNone <-> regionprops image = []) /\
  (o = PyNone -> h' = h) /\
  forall l, o = PyDict l ->
    h !! l = None /\
    (forall l', l' ≠ l -> h' !! l' = h !! l') /\
    exists d : dict,
      h' !! l = Some d /\ dom d = list_to_set properties2d_keys /\
      d !! "RL_diameter" = None /\ d !! "AP_diameter" = None.
Proof.
  intros H. destruct (regionprops image) as [| r0 regions] eqn:Hreg.
  - rewrite (properties2d_empty _ _ _ _ _ _ Hreg) in H. injection H as <- <-.
    split; [done |]. split; [done |]. by intros l.
  - assert (Hne : regionprops image ≠ []) by (by rewrite Hreg).
    destruct (properties2d_success _ _ _ _ _ _ _ _ Hne H)
      as (r & ratio & area & diameter & major_l & minor_l & size_grid & sq & dice & d
          & _ & _ & _ & _ & _ & Hnew & Hdom & _).
    unfold new_dict in Hnew. injection Hnew as -> ->.
    split; [split; discriminate |]. split; [discriminate |].
    intros l [= <-]. split; [apply not_elem_of_dom, is_fresh |].
    split; [intros l' Hl'; by rewrite lookup_insert_ne |].
    exists d. split; [apply lookup_insert_eq |]. split; [exact Hdom |].
    split; apply not_elem_of_dom; rewrite Hdom; unfold properties2d_keys;
      rewrite elem_of_list_to_set, !elem_of_cons, elem_of_nil;
      intros Hin; repeat (destruct Hin as [Hin | Hin]; [discriminate |]); done.
Qed.

(** The block patch at 8 mm per pixel: the grid has 8 x 8 points, all of them
    on the block. *)
Lemma block_image_properties2d :
  exists d : dict,
    properties2d insertion_argsort cos45 sin45 block_image (Some (8, 8)%Q) ∅
      = Ok (new_dict d ∅).
Proof.
  destruct (properties2d_resolution insertion_argsort cos45 sin45 block_image
              8 8 ∅ block_region (const_square 8 1) (Finite (64 # 64)))
    as (d & Hp & _);
    [done | reflexivity | done | vm_compute; reflexivity | vm_compute; reflexivity |].
  exists d. exact Hp.
Qed.

Lemma properties2d_returns_witness :
  exists (l : loc) (h' : heap),
    properties2d insertion_argsort cos45 sin45 block_image (Some (8, 8)%Q) ∅
      = Ok (PyDict l, h') /\
    exists d : dict, h' !! l = Some d /\ d !! "RL_diameter" = None.
Proof.
  destruct block_image_properties2d as (d0 & Hp).
  destruct (properties2d_returns _ _ _ _ _ _ _ _ Hp) as (_ & _ & Hdict).
  destruct (Hdict _ eq_refl) as (_ & _ & d & Hd & _ & Hrl & _).
  eexists _, _. split; [exact Hp |]. exists d. split; [exact Hd | exact Hrl].
Defined.

Lemma math_pi_pos : (0 < math_pi)%Q.
Proof. reflexivity. Qed.

(** The orientation in degrees is between -45 and 45 exactly when the
    orientation in radians is between -pi/4 and pi/4. *)
Lemma in_range_degrees (o : Q) :
  in_range (Finite (o * 180 / math_pi)) = true <->
  (- (math_pi / 4) < o /\ o < math_pi / 4)%Q.
Proof.
  rewrite in_range_Finite. pose proof math_pi_pos as Hpi.
  assert (He : (o * 180 / math_pi * math_pi == o * 180)%Q) by (field; lra).
  assert (Hq : (math_pi / 4 == (1 # 4) * math_pi)%Q) by field.
  rewrite !Hq. split.
  - intros [Hl Hr].
    apply (Qmult_lt_r _ _ math_pi Hpi) in Hl, Hr.
    rewrite He in Hl, Hr. clear He Hq. lra.
  - intros [Hl Hr]. clear He Hq. split.
    + apply Qlt_shift_div_l; [exact Hpi | lra].
    + apply Qlt_shift_div_r; [exact Hpi | lra].
Qed.

Lemma scaled_Some (r0 r1 : Q) (r : sk.region) (area : value)
    (diameter major_l minor_l size_grid : Q) :
  scaled (Some (r0, r1)) r = Ok (area, diameter, major_l, minor_l, size_grid) ->
  ~ (r0 == 0)%Q /\
  area = VFloat (Finite (inject_Z (sk.area r) * (r0 * r1))) /\
  diameter = (sk.equivalent_diameter r * r0)%Q /\
  major_l = (sk.major_axis_length r * r0)%Q /\
  minor_l = (sk.minor_axis_length r * r0)%Q /\
  size_grid = (8 / r0)%Q.
Proof.
  unfold scaled, py_div. intros H.
  destruct (Qeq_bool r0 0) eqn:E; [discriminate |].
  apply Ok_inj in H. injection H as <- <- <- <- <-.
  split; [| done]. intros Hz. apply Qeq_bool_iff in Hz. congruence.
Qed.

(** X4. What the loop does with a patch, [properties2d] with a resolution and
    then [assign_AP_and_RL_diameter], in terms of the region: the object
    returned by the first call is updated by the second, and [RL_diameter] is
    the scaled major axis length exactly when the orientation of the region,
    in radians, is strictly between -pi/4 and pi/4; otherwise it is the
    scaled minor axis length. [AP_diameter] is the other one. *)
Theorem extract_then_assign (np_argsort : list Z -> list nat)
    (math_cos math_sin : Q -> Q) (image : Image) (r0 r1 : Q)
    (h h1 : heap) (o : pyobj) :
  regionprops image ≠ [] ->
  properties2d np_argsort math_cos math_sin image (Some (r0, r1)) h = Ok (o, h1) ->
  exists (r : sk.region) (l : loc) (d' : dict),
    sc_region_of np_argsort (regionprops image) = Ok r /\
    o = PyDict l /\
    assign_AP_and_RL_diameter o h1 = Ok (PyDict l, <[l := d']> h) /\
    ((- (math_pi / 4) < sk.orientation r /\ sk.orientation r < math_pi / 4)%Q ->
       d' !! "RL_diameter" = Some (VFloat (Finite (sk.major_axis_length r * r0))) /\
       d' !! "AP_diameter" = Some (VFloat (Finite (sk.minor_axis_length r * r0)))) /\
    (~ (- (math_pi / 4) < sk.orientation r /\ sk.orientation r < math_pi / 4)%Q ->
       d' !! "RL_diameter" = Some (VFloat (Finite (sk.minor_axis_length r * r0))) /\
       d' !! "AP_diameter" = Some (VFloat (Finite (sk.major_axis_length r * r0)))).
Proof.
  intros Hne H.
  destruct (properties2d_success _ _ _ _ _ _ _ _ Hne H)
    as (r & ratio & area & diameter & major_l & minor_l & size_grid & sq & dice & d
        & Hr & _ & Hsc & _ & _ & Hnew & _ & Hma & Hmi & Ho & _).
  apply scaled_Some in Hsc as (_ & _ & _ & -> & -> & _).
  unfold new_dict in Hnew. injection Hnew as -> ->.
  eexists r, _, _. split; [exact Hr |]. split; [reflexivity |].
  split.
  { rewrite (assign_AP_and_RL_diameter_eq _ _ d _ _ _
               (Finite (sk.orientation r * 180 / math_pi))
               (lookup_insert_eq _ _ _) Ho eq_refl Hma Hmi).
    by rewrite (insert_insert_eq h). }
  split.
  - intros Hin. apply in_range_degrees in Hin. rewrite Hin. split.
    + rewrite lookup_insert_ne by done. apply lookup_insert_eq.
    + apply lookup_insert_eq.
  - intros Hout. assert (Hf : in_range (Finite (sk.orientation r * 180 / math_pi)) = false).
    { apply not_true_iff_false. by rewrite in_range_degrees. }
    rewrite Hf. split.
    + rewrite lookup_insert_ne by done. apply lookup_insert_eq.
    + apply lookup_insert_eq.
Qed.

Lemma extract_then_assign_witness :
  exists (o : pyobj) (h1 : heap),
    properties2d insertion_argsort cos45 sin45 block_image (Some (8, 8)%Q) ∅
      = Ok (o, h1) /\
    exists (l : loc) (d' : dict),
      assign_AP_and_RL_diameter o h1 = Ok (PyDict l, <[l := d']> ∅) /\
      d' !! "RL_diameter" = Some (VFloat (Finite (2 * 8))) /\
      d' !! "AP_diameter" = Some (VFloat (Finite (2 * 8))).
Proof.
  destruct block_image_properties2d as (d & Hp).
  destruct (new_dict d ∅) as [o h1] eqn:E.
  exists o, h1. split; [exact Hp |].
  assert (Hne : regionprops block_image ≠ []) by discriminate.
  destruct (extract_then_assign _ _ _ _ _ _ _ _ _ Hne Hp)
    as (r & l & d' & Hr & _ & Ha & _ & Hout).
  apply Ok_inj in Hr. subst r.
  exists l, d'. split; [exact Ha |]. apply Hout.
  intros [_ Hlt]. revert Hlt. apply Qlt_irrefl.
Defined.

(** X5. With a resolution whose first component is 0 the call raises
    [ZeroDivisionError] as soon as a region is selected: the [try] of lines
    46-49 covers the ratio only, not [8.0 / resolution[0]]. *)
Theorem properties2d_zero_resolution (np_argsort : list Z -> list nat)
    (math_cos math_sin : Q -> Q) (image : Image) (r0 r1 : Q) (h : heap)
    (r : sk.region) :
  regionprops image ≠ [] ->
  sc_region_of np_argsort (regionprops image) = Ok r ->
  (r0 == 0)%Q ->
  properties2d np_argsort math_cos math_sin image (Some (r0, r1)) h
    = Raise ZeroDivisionError.
Proof.
  intros Hne Hr Hz. unfold properties2d.
  rewrite bool_decide_true by (by destruct (regionprops image)).
  rewrite Hr, bind_Ok, ratio_minor_major_eq, bind_Ok.
  unfold scaled. by rewrite (py_div_zero 8 r0 Hz).
Qed.

Lemma properties2d_zero_resolution_witness :
  properties2d insertion_argsort cos45 sin45 block_image (Some (0, 1)%Q) ∅
    = Raise ZeroDivisionError.
Proof.
  apply (properties2d_zero_resolution _ _ _ _ _ _ _ block_region);
    [discriminate | reflexivity | reflexivity].
Defined.

Lemma py_int_small (x : Q) : (0 <= x)%Q -> (x < 1)%Q -> py_int x = 0%Z.
Proof.
  unfold py_int, Qle, Qlt. destruct x as [n d]. cbn [Qnum Qden]. intros H0 H1.
  apply Z.quot_small. lia.
Qed.

(** X6. Without a resolution the half-width of the grid is
    [int(2.4 * major_axis_length)]: for a region whose major axis length is
    below 5/12 (a single pixel has 0) the grid is empty, [map_coordinates]
    refuses the empty array of coordinates and the call raises
    [RuntimeError]. *)
Theorem properties2d_small_region (np_argsort : list Z -> list nat)
    (math_cos math_sin : Q -> Q) (image : Image) (h : heap) (r : sk.region) :
  regionprops image ≠ [] ->
  sc_region_of np_argsort (regionprops image) = Ok r ->
  (0 <= sk.major_axis_length r)%Q ->
  (sk.major_axis_length r < 5 # 12)%Q ->
  properties2d np_argsort math_cos math_sin image None h = Raise RuntimeError.
Proof.
  intros Hne Hr H0 H1. unfold properties2d.
  rewrite bool_decide_true by (by destruct (regionprops image)).
  rewrite Hr, bind_Ok, ratio_minor_major_eq, bind_Ok.
  unfold scaled. rewrite py_int_small by lra.
  cbn [mret result_ret]. rewrite bind_Ok.
  by destruct (sk.centroid r) as [y0 x0].
Qed.

Lemma properties2d_small_region_witness :
  properties2d insertion_argsort cos45 sin45 pixel_image None ∅ = Raise RuntimeError.
Proof.
  apply (properties2d_small_region _ _ _ _ _ pixel_region);
    [discriminate | reflexivity | simpl; lra | simpl; lra].
Defined.

(** X7. Of the nine properties, the resolution changes the area, the
    diameters and, through the size of the grid, the symmetry. The ratio of
    the axes, the eccentricity, the solidity and the orientation are read
    from the region before anything is scaled: two calls on the same patch
    with different resolutions, or with none, store the same values under
    these four names. *)
Theorem unscaled_entries (np_argsort : list Z -> list nat)
    (math_cos math_sin : Q -> Q) (image : Image) (res1 res2 : option (Q * Q))
    (h1 h2 h1' h2' : heap) (l1 l2 : loc) :
  properties2d np_argsort math_cos math_sin image res1 h1 = Ok (PyDict l1, h1') ->
  properties2d np_argsort math_cos math_sin image res2 h2 = Ok (PyDict l2, h2') ->
  exists d1 d2 : dict,
    h1' !! l1 = Some d1 /\ h2' !! l2 = Some d2 /\
    forall key,
      key ∈ ["ratio_minor_major"; "eccentricity"; "solidity"; "orientation"] ->
      is_Some (d1 !! key) /\ d1 !! key = d2 !! key.
Proof.
  intros H1 H2.
  assert (Hne : regionprops image ≠ []).
  { intros He. rewrite (properties2d_empty _ _ _ _ _ _ He) in H1. discriminate. }
  destruct (properties2d_success _ _ _ _ _ _ _ _ Hne H1)
    as (r & ratio & area & diameter & major_l & minor_l & size_grid & sq & dice & d1
        & Hr & Hratio & _ & _ & _ & Hnew & _ & _ & _ & Ho & Hrat & _
        & _ & _ & Hecc & Hsol).
  destruct (properties2d_success _ _ _ _ _ _ _ _ Hne H2)
    as (r' & ratio' & area' & diameter' & major_l' & minor_l' & size_grid' & sq'
        & dice' & d2
        & Hr' & Hratio' & _ & _ & _ & Hnew' & _ & _ & _ & Ho' & Hrat' & _
        & _ & _ & Hecc' & Hsol').
  rewrite Hr in Hr'. apply Ok_inj in Hr'. subst r'.
  rewrite Hratio in Hratio'. apply Ok_inj in Hratio'. subst ratio'.
  unfold new_dict in Hnew, Hnew'. injection Hnew as -> ->. injection Hnew' as -> ->.
  exists d1, d2. split; [apply lookup_insert_eq |]. split; [apply lookup_insert_eq |].
  intros key Hkey. rewrite !elem_of_cons, elem_of_nil in Hkey.
  destruct Hkey as [-> | [-> | [-> | [-> | []]]]].
  - by rewrite Hrat, Hrat'.
  - by rewrite Hecc, Hecc'.
  - by rewrite Hsol, Hsol'.
  - by rewrite Ho, Ho'.
Qed.

(** The block patch at 16 mm per pixel: a grid of 4 x 4 points. *)
Lemma block_image_properties2d_coarse :
  exists d : dict,
    properties2d insertion_argsort cos45 sin45 block_image (Some (16, 16)%Q) ∅
      = Ok (new_dict d ∅).
Proof.
  destruct (properties2d_resolution insertion_argsort cos45 sin45 block_image
              16 16 ∅ block_region (const_square 4 1) (Finite (16 # 16)))
    as (d & Hp & _);
    [done | reflexivity | done | vm_compute; reflexivity | vm_compute; reflexivity |].
  exists d. exact Hp.
Qed.

Lemma unscaled_entries_witness :
  exists (l1 l2 : loc) (h1' h2' : heap) (d1 d2 : dict),
    properties2d insertion_argsort cos45 sin45 block_image (Some (8, 8)%Q) ∅
      = Ok (PyDict l1, h1') /\
    properties2d insertion_argsort cos45 sin45 block_image (Some (16, 16)%Q) ∅
      = Ok (PyDict l2, h2') /\
    h1' !! l1 = Some d1 /\ h2' !! l2 = Some d2 /\
    d1 !! "ratio_minor_major" = d2 !! "ratio_minor_major".
Proof.
  destruct block_image_properties2d as (d & Hp).
  destruct block_image_properties2d_coarse as (d' & Hp').
  destruct (unscaled_entries _ _ _ _ _ _ _ _ _ _ _ _ Hp Hp')
    as (d1 & d2 & Hd1 & Hd2 & Hkeys).
  eexists _, _, _, _, d1, d2. split; [exact Hp |]. split; [exact Hp' |].
  split; [exact Hd1 |]. split; [exact Hd2 |].
  apply Hkeys. by left.
Defined.

(** ** The symmetry score *)

Ltac binary_rows :=
  repeat first [apply Forall_nil_2 | apply Forall_cons_2 | split];
  first [reflexivity | left; reflexivity | right; reflexivity].

Lemma overlap_comm (a b : list Q) : overlap a b = overlap b a.
Proof.
  revert b. induction a as [| x a IH]; intros [| y b]; simpl; try done.
  rewrite (IH b). by destruct (Qeq_bool x 0), (Qeq_bool y 0).
Qed.

Lemma overlap_diag (a : list Q) : overlap a a = foreground a.
Proof.
  induction a as [| x a IH]; simpl; [done |].
  rewrite IH. by destruct (Qeq_bool x 0).
Qed.

(** The score of a binary square with foreground, as a quotient of counts. *)
Lemma dice_symmetry_counts (sq : list (list Q)) :
  binary_square sq ->
  (0 < foreground (concat sq))%nat ->
  exists d : Q,
    dice_symmetry sq = Ok (Finite d) /\
    (d == inject_Z (Z.of_nat (overlap (concat (left_image sq))
                                      (concat (right_image sq)))) * 2
          / (inject_Z (Z.of_nat (foreground (concat (left_image sq))))
             + inject_Z (Z.of_nat (foreground (concat (right_image sq))))))%Q /\
    (0 < inject_Z (Z.of_nat (foreground (concat (left_image sq))))
         + inject_Z (Z.of_nat (foreground (concat (right_image sq)))))%Q.
Proof.
  intros Hsq Hfg.
  destruct (binary_square_shapes sq Hsq) as (Hshape & Hl & Hr).
  pose proof (Qsum_select_eq1 _ _ Hl Hr) as Hsel.
  pose proof (Qsum_binary _ Hl) as HL.
  pose proof (Qsum_binary _ Hr) as HR.
  pose proof (foreground_halves (size_half sq) sq) as Hsum.
  fold (left_image sq) in Hsum. fold (right_image sq) in Hsum.
  set (L := concat (left_image sq)) in *. set (R := concat (right_image sq)) in *.
  assert (Hden : (0 < inject_Z (Z.of_nat (foreground L))
                      + inject_Z (Z.of_nat (foreground R)))%Q).
  { rewrite <- inject_Z_plus, <- (Zlt_Qlt 0). lia. }
  exists (Qsum (select_eq1 L R) * 2 / (Qsum L + Qsum R))%Q. split.
  { rewrite (dice_symmetry_eq sq Hsq). fold L R. unfold np_sum2. fold L R.
    unfold np_div.
    destruct (Qeq_bool (Qsum L + Qsum R) 0) eqn:E; [| done].
    apply Qeq_bool_iff in E. rewrite HL, HR in E. lra. }
  split; [| exact Hden]. rewrite Hsel, HL, HR. reflexivity.
Qed.

Lemma mirrored_halves (k : nat) (rows : list (list Q)) :
  Forall (fun row => length row = (2 * k)%nat) rows ->
  take k <$> (reverse <$> rows) = (fun row => reverse (drop k row)) <$> rows /\
  (fun row => reverse (drop k row)) <$> (reverse <$> rows) = take k <$> rows.
Proof.
  induction 1 as [| row rows Hrow _ [IH1 IH2]]; [done |].
  cbn [fmap list_fmap]. cbn [fmap] in IH1, IH2. rewrite IH1, IH2. split; f_equal.
  - rewrite take_reverse. do 2 f_equal. lia.
  - rewrite drop_reverse, reverse_involutive. f_equal. lia.
Qed.

Lemma binary_square_side (sq : list (list Q)) :
  binary_square sq ->
  Forall (fun row => length row = (2 * size_half sq)%nat) sq.
Proof.
  intros [[k Hk] Hrows]. unfold size_half.
  assert (Hh : (length sq / 2)%nat = k).
  { rewrite Hk, (Nat.mul_comm 2 k). by apply Nat.div_mul. }
  rewrite Hh. eapply Forall_impl; [exact Hrows |].
  intros row [Hlen _]. lia.
Qed.

Lemma binary_square_mirror (sq : list (list Q)) :
  binary_square sq -> binary_square (reverse <$> sq).
Proof.
  intros [Heven Hrows]. split; [by rewrite length_fmap |].
  rewrite length_fmap. apply Forall_fmap.
  eapply Forall_impl; [exact Hrows |]. intros row [Hlen Hbin]. simpl.
  split; [by rewrite length_reverse | by apply Forall_reverse].
Qed.

Lemma mirror_images (sq : list (list Q)) :
  binary_square sq ->
  left_image (reverse <$> sq) = right_image sq /\
  right_image (reverse <$> sq) = left_image sq.
Proof.
  intros Hsq. pose proof (binary_square_side sq Hsq) as Hside.
  unfold left_image, right_image, size_half. rewrite length_fmap.
  apply (mirrored_halves _ _ Hside).
Qed.

(** X8. A binary square with foreground whose rows all read the same in both
    directions, that is a shape symmetric about the axis the code folds the
    square along, has symmetry score 1. *)
Theorem dice_symmetry_symmetric (sq : list (list Q)) :
  binary_square sq ->
  (0 < foreground (concat sq))%nat ->
  Forall (fun row => reverse row = row) sq ->
  exists d : Q, dice_symmetry sq = Ok (Finite d) /\ (d == 1)%Q.
Proof.
  intros Hsq Hfg Hsym.
  destruct (dice_symmetry_counts sq Hsq Hfg) as (d & Hd & Heq & Hden).
  exists d. split; [exact Hd |].
  assert (HR : right_image sq = left_image sq).
  { destruct (mirror_images sq Hsq) as [_ <-]. do 2 f_equal.
    apply list_eq. intros i. rewrite list_lookup_fmap.
    destruct (sq !! i) as [row |] eqn:E; [| done]. simpl. f_equal.
    by eapply Forall_lookup_1 in Hsym. }
  rewrite HR in Heq, Hden. rewrite overlap_diag in Heq.
  rewrite Heq. field. lra.
Qed.

Lemma dice_symmetry_symmetric_witness :
  exists d : Q,
    dice_symmetry [[0; 1; 1; 0]; [1; 1; 1; 1]; [1; 0; 0; 1]; [0; 0; 0; 0]]%Q
      = Ok (Finite d) /\ (d == 1)%Q.
Proof.
  apply dice_symmetry_symmetric.
  - split; [by exists 2%nat |].
    binary_rows.
  - vm_compute. lia.
  - by repeat constructor.
Defined.

(** X9. On binary squares the score does not depend on the side: the square
    flipped left to right has the same score. (The mask [right_image == 1]
    makes the two halves play different roles, which only shows on values
    other than 0 and 1.) *)
Theorem dice_symmetry_mirror (sq : list (list Q)) :
  binary_square sq ->
  (0 < foreground (concat sq))%nat ->
  exists d d' : Q,
    dice_symmetry sq = Ok (Finite d) /\
    dice_symmetry (reverse <$> sq) = Ok (Finite d') /\
    (d == d')%Q.
Proof.
  intros Hsq Hfg.
  destruct (dice_symmetry_counts sq Hsq Hfg) as (d & Hd & Heq & Hden).
  pose proof (binary_square_mirror sq Hsq) as Hsq'.
  destruct (mirror_images sq Hsq) as [HL HR].
  assert (Hfg' : (0 < foreground (concat (reverse <$> sq)))%nat).
  { pose proof (foreground_halves (size_half sq) sq) as H1.
    pose proof (foreground_halves (size_half (reverse <$> sq)) (reverse <$> sq)) as H2.
    fold (left_image sq) in H1. fold (right_image sq) in H1.
    fold (left_image (reverse <$> sq)) in H2. fold (right_image (reverse <$> sq)) in H2.
    rewrite HL, HR in H2. lia. }
  destruct (dice_symmetry_counts _ Hsq' Hfg') as (d' & Hd' & Heq' & Hden').
  exists d, d'. split; [exact Hd |]. split; [exact Hd' |].
  rewrite HL, HR in Heq', Hden'. rewrite overlap_comm in Heq'.
  rewrite Heq, Heq'. field. lra.
Qed.

Lemma dice_symmetry_mirror_witness :
  exists d d' : Q,
    dice_symmetry [[1; 1; 0; 0]; [1; 0; 1; 0]; [0; 0; 0; 1]; [0; 0; 0; 0]]%Q
      = Ok (Finite d) /\
    dice_symmetry [[0; 0; 1; 1]; [0; 1; 0; 1]; [1; 0; 0; 0]; [0; 0; 0; 0]]%Q
      = Ok (Finite d') /\
    (d == d')%Q.
Proof.
  apply (dice_symmetry_mirror [[1; 1; 0; 0]; [1; 0; 1; 0]; [0; 0; 0; 1]; [0; 0; 0; 0]]%Q).
  - split; [by exists 2%nat |].
    binary_rows.
  - vm_compute. lia.
Defined.

(** ** The resampled square *)

Lemma elem_of_concat (x : Q) (ls : list (list Q)) :
  x ∈ concat ls <-> exists l, x ∈ l /\ l ∈ ls.
Proof.
  induction ls as [| l ls IH]; cbn [concat].
  - split; [by intros ?%elem_of_nil | by intros (l & _ & ?%elem_of_nil)].
  - rewrite elem_of_app, IH. split.
    + intros [H | (l' & H1 & H2)]; [exists l | exists l'];
        (split; [done |]); [by left | by right].
    + intros (l' & H1 & H2). apply elem_of_cons in H2 as [-> | H2];
        [by left | right; by exists l'].
Qed.

Lemma nearest_pixel (image : Image) (c : Q * Q) :
  nearest image c = 0%Q \/ nearest image c ∈ concat (pixels image).
Proof.
  destruct c as [x y]. unfold nearest.
  destruct (_ && _); [| by left].
  set (i := Z.to_nat (Qfloor (x + (1 # 2)))). set (j := Z.to_nat (Qfloor (y + (1 # 2)))).
  destruct (pixels image !! i) as [row |] eqn:Ei.
  - rewrite (nth_lookup_Some _ _ _ _ Ei).
    destruct (row !! j) as [v |] eqn:Ej.
    + rewrite (nth_lookup_Some _ _ _ _ Ej). right.
      apply elem_of_concat. exists row.
      split; [by eapply list_elem_of_lookup_2 | by eapply list_elem_of_lookup_2].
    + left. apply nth_overflow. by apply lookup_ge_None.
  - left. rewrite (nth_overflow (pixels image)) by (by apply lookup_ge_None).
    by destruct j.
Qed.

Lemma Forall_chunks (P : Q -> Prop) (rows n : nat) (l : list Q) :
  Forall P l -> Forall (Forall P) (chunks rows n l).
Proof.
  revert l. induction rows as [| rows IH]; intros l Hl; [constructor |].
  cbn [chunks]. constructor; [by apply Forall_take |].
  apply IH. by apply Forall_drop.
Qed.

Lemma mgrid_axis_integer (size_grid : Q) (k : Z) :
  (size_grid == inject_Z k)%Q ->
  length (mgrid_axis size_grid (25 # 100)) = Z.to_nat (8 * k).
Proof.
  intros Hk. unfold mgrid_axis. rewrite length_fmap, length_seq.
  assert (He : ((size_grid - - size_grid) / (25 # 100) == inject_Z (8 * k))%Q).
  { rewrite Hk, inject_Z_mult. field. }
  by rewrite (Qceiling_comp _ _ He), Qceiling_Z.
Qed.

(** X10. For a patch whose pixels are 0 or 1 (values that the single
    precision asked of [map_coordinates] keeps as they are) and a grid whose
    half-width is a whole number (16 in the pipeline,
    [int(2.4 * major_axis_length)] without a resolution), the resampled
    square is a binary square of side 8 times the half-width: what the
    symmetry score is proved for is what the pipeline computes it on. *)
Theorem resampled_square_binary (math_cos math_sin : Q -> Q) (image : Image)
    (x0 y0 orientation size_grid : Q) (k : Z) (sq : list (list Q)) :
  (size_grid == inject_Z k)%Q ->
  Forall (Forall binary) (pixels image) ->
  resampled_square math_cos math_sin image x0 y0 orientation size_grid = Ok sq ->
  length sq = Z.to_nat (8 * k) /\ binary_square sq.
Proof.
  intros Hk Hbin H.
  destruct (resampled_square_shape _ _ _ _ _ _ _ _ H) as [Hlen Hrows].
  rewrite (mgrid_axis_integer _ _ Hk) in Hlen.
  assert (Hpix : Forall (Forall (fun v => v = 0%Q \/ v ∈ concat (pixels image))) sq).
  { unfold resampled_square in H.
    apply bind_inv in H as (square & Hmap & H). unfold reshape in H.
    destruct (decide _); [| discriminate]. apply Ok_inj in H. subst sq.
    apply Forall_chunks. unfold map_coordinates in Hmap.
    destruct (_ <$> _) as [| c cs] eqn:E in Hmap; [discriminate |].
    apply Ok_inj in Hmap. subst square.
    apply Forall_fmap, Forall_forall. intros c' _. apply nearest_pixel. }
  split; [exact Hlen |]. split.
  - rewrite Hlen. exists (Z.to_nat (4 * k)). lia.
  - apply Forall_forall. intros row Hrow. split.
    + by eapply Forall_forall in Hrows.
    + eapply Forall_forall in Hpix; [| exact Hrow].
      eapply Forall_impl; [exact Hpix |]. intros v [-> | Hv]; [by left |].
      apply elem_of_concat in Hv as (r & Hv & Hr).
      eapply Forall_forall in Hbin; [| exact Hr].
      by eapply Forall_forall in Hbin.
Qed.

Lemma resampled_square_binary_witness :
  resampled_square cos45 sin45 block_image (3 # 2) (3 # 2) quarter_pi (8 / 8)
    = Ok (const_square 8 1) /\
  binary_square (const_square 8 1) /\ length (const_square 8 1) = 8%nat.
Proof.
  assert (H : resampled_square cos45 sin45 block_image (3 # 2) (3 # 2)
                quarter_pi (8 / 8) = Ok (const_square 8 1))
    by (vm_compute; reflexivity).
  split; [exact H |].
  destruct (resampled_square_binary cos45 sin45 block_image (3 # 2) (3 # 2)
              quarter_pi (8 / 8) 1 (const_square 8 1)) as (Hlen & Hbin).
  - reflexivity.
  - clear H. binary_rows.
  - exact H.
  - split; [exact Hbin | exact Hlen].
Defined.

(** ** The sampling loop, point by point *)

Lemma series_append_Some (properties : series) (key : string) (l : list value)
    (v : value) :
  properties !! key = Some l ->
  series_append properties key v = Ok (<[key := l ++ [v]]> properties).
Proof. intros H. unfold series_append. by rewrite (series_get_Some _ _ _ H). Qed.

Lemma property_list_not_aux (name : string) :
  name ∈ property_list ->
  name ≠ "incremental_length" /\ name ≠ "distance_from_C1" /\
  name ≠ "vertebral_level" /\ name ≠ "z_slice".
Proof.
  intros Hin. repeat split; intros ->; revert Hin; by apply (bool_decide_unpack _).
Qed.

(** What the two calls of lines 240-241 leave in the heap for a patch with a
    region: one new dictionary, holding a float under each of the nine
    property names. *)
Lemma properties2d_then_assign (np_argsort : list Z -> list nat)
    (math_cos math_sin : Q -> Q) (image : Image) (r0 r1 : Q)
    (h h1 : heap) (l : loc) :
  properties2d np_argsort math_cos math_sin image (Some (r0, r1)) h
    = Ok (PyDict l, h1) ->
  exists d' : dict,
    h !! l = None /\
    assign_AP_and_RL_diameter (PyDict l) h1 = Ok (PyDict l, <[l := d']> h) /\
    forall name, name ∈ property_list -> exists x, d' !! name = Some (VFloat x).
Proof.
  intros H.
  assert (Hne : regionprops image ≠ []).
  { intros He. rewrite (properties2d_empty _ _ _ _ _ _ He) in H. discriminate. }
  destruct (properties2d_success _ _ _ _ _ _ _ _ Hne H)
    as (r & ratio & area & diameter & major_l & minor_l & size_grid & sq & dice & d
        & _ & _ & Hsc & _ & _ & Hnew & _ & Hma & Hmi & Ho & Hrat & Hsym
        & Harea & Hdiam & Hecc & Hsol).
  apply scaled_Some in Hsc as (_ & -> & _).
  unfold new_dict in Hnew. injection Hnew as -> ->.
  eexists. split; [apply not_elem_of_dom, is_fresh |]. split.
  { rewrite (assign_AP_and_RL_diameter_eq _ _ d _ _ _
               (Finite (sk.orientation r * 180 / math_pi))
               (lookup_insert_eq _ _ _) Ho eq_refl Hma Hmi).
    by rewrite (insert_insert_eq h). }
  intros name Hin. unfold property_list in Hin.
  rewrite !elem_of_cons, elem_of_nil in Hin.
  destruct (in_range _);
    repeat (destruct Hin as [-> | Hin];
            [first [ rewrite lookup_insert_eq; by eexists
                   | rewrite lookup_insert_ne by done;
                     first [ rewrite lookup_insert_eq; by eexists
                           | rewrite lookup_insert_ne by done; by eexists ] ] |]);
    done.
Qed.

(** The loop of lines 250-251 over the property names. *)
Lemma for_each_getitem_append (l : loc) (h : heap) (d : dict) (names : list string)
    (properties : series) (n : nat) :
  NoDup names ->
  h !! l = Some d ->
  (forall name, name ∈ names -> exists x, d !! name = Some (VFloat x)) ->
  (forall name, name ∈ names ->
     exists xs, properties !! name = Some (VFloat <$> xs) /\ length xs = n) ->
  exists properties' : series,
    for_each names
      (fun property_name (p : series) =>
         v ← getitem (PyDict l) property_name h;
         series_append p property_name v)
      properties = Ok properties' /\
    (forall name, name ∈ names ->
       exists xs, properties' !! name = Some (VFloat <$> xs) /\ length xs = S n) /\
    (forall k, k ∉ names -> properties' !! k = properties !! k).
Proof.
  intros Hnd Hl. revert properties.
  induction Hnd as [| name names Hnotin Hnd IH]; intros properties Hd Hser.
  { exists properties. split; [done |]. split; [by intros ? ?%elem_of_nil | done]. }
  destruct (Hd name) as (x & Hx); [by left |].
  destruct (Hser name) as (xs & Hxs & Hlen); [by left |].
  destruct (IH (<[name := (VFloat <$> xs) ++ [VFloat x]]> properties))
    as (properties' & Hfor & Hin' & Hout').
  { intros k Hk. apply Hd. by right. }
  { intros k Hk. rewrite lookup_insert_ne by (intros ->; contradiction).
    apply Hser. by right. }
  exists properties'. split.
  { cbn [for_each]. rewrite (getitem_dict _ _ _ _ _ Hl Hx), bind_Ok.
    rewrite (series_append_Some _ _ _ _ Hxs), bind_Ok. exact Hfor. }
  split.
  - intros k [-> | Hk]%elem_of_cons; [| by apply Hin'].
    rewrite (Hout' name Hnotin), lookup_insert_eq.
    exists (xs ++ [x]). split; [by rewrite fmap_app |].
    rewrite length_app. simpl. lia.
  - intros k Hk. apply not_elem_of_cons in Hk as [Hne Hk].
    rewrite (Hout' k Hk). by rewrite lookup_insert_ne.
Qed.

Lemma sampled_init (fname_discs : bool) : sampled fname_discs [] init_properties.
Proof.
  split; [reflexivity |]. split; [reflexivity |].
  split; [by destruct fname_discs |]. split; [by destruct fname_discs |].
  intros name Hin. exists []. split; [| done].
  unfold property_list in Hin. rewrite !elem_of_cons, elem_of_nil in Hin.
  repeat (destruct Hin as [-> | Hin]; [reflexivity |]). done.
Qed.

(** One iteration on a patch for which [properties2d] returns a dictionary. *)
Lemma loop_body_region (np_argsort : list Z -> list nat)
    (math_cos math_sin : Q -> Q) (fname_discs : bool) (pre : list Point)
    (pt : Point) (properties : series) (h h1 : heap) (out : list Z) (l : loc) :
  sampled fname_discs pre properties ->
  properties2d np_argsort math_cos math_sin (patch pt)
    (Some (resolution, resolution)) h = Ok (PyDict l, h1) ->
  exists (properties' : series) (h' : heap),
    loop_body np_argsort math_cos math_sin fname_discs pt (properties, h, out)
      = Ok (properties', h', out) /\
    sampled fname_discs (pre ++ [pt]) properties'.
Proof.
  intros (Hz & Hinc & Hdist & Hlev & Hser) Hp.
  destruct (properties2d_then_assign _ _ _ _ _ _ _ _ _ Hp) as (d' & _ & Ha & Hd').
  set (p1 := <["incremental_length" :=
                 ((fun pt => VFloat (Finite (incremental_length pt))) <$> pre)
                 ++ [VFloat (Finite (incremental_length pt))]]> properties).
  set (p2 := if fname_discs
             then <["vertebral_level" :=
                      ((fun pt => VInt (l_points pt)) <$> pre) ++ [VInt (l_points pt)]]>
                    (<["distance_from_C1" :=
                         ((fun pt => VFloat (Finite (dist_points pt))) <$> pre)
                         ++ [VFloat (Finite (dist_points pt))]]> p1)
             else p1).
  set (p3 := <["z_slice" := ((fun pt => VInt (z_pix pt)) <$> pre) ++ [VInt (z_pix pt)]]> p2).
  assert (H2 : (if fname_discs then
                  properties ← series_append p1 "distance_from_C1"
                                 (VFloat (Finite (dist_points pt)));
                  series_append properties "vertebral_level" (VInt (l_points pt))
                else mret p1) = Ok p2).
  { subst p2. destruct fname_discs; [| done].
    rewrite (series_append_Some p1 "distance_from_C1" _ _
               ltac:(subst p1; rewrite lookup_insert_ne by done; exact Hdist)), bind_Ok.
    apply series_append_Some.
    subst p1. rewrite !lookup_insert_ne by done. exact Hlev. }
  assert (H3 : series_append p2 "z_slice" (VInt (z_pix pt)) = Ok p3).
  { apply series_append_Some. subst p2 p1.
    destruct fname_discs; rewrite !lookup_insert_ne by done; exact Hz. }
  assert (Hkeep : forall name, name ∈ property_list -> p3 !! name = properties !! name).
  { intros name Hin. destruct (property_list_not_aux name Hin) as (N1 & N2 & N3 & N4).
    subst p3 p2 p1. destruct fname_discs; by rewrite !lookup_insert_ne. }
  destruct (for_each_getitem_append l (<[l := d']> h) d' property_list p3 (length pre)
              NoDup_property_list (lookup_insert_eq _ _ _) Hd')
    as (properties' & Hfor & Hin' & Hout').
  { intros name Hin. rewrite (Hkeep name Hin). by apply Hser. }
  exists properties', (<[l := d']> h). split.
  { unfold loop_body. rewrite Hp, bind_Ok. cbv beta iota.
    rewrite Ha, bind_Ok. cbv beta iota.
    rewrite (series_append_Some _ _ _ _ Hinc), bind_Ok. fold p1.
    rewrite H2, bind_Ok, H3, bind_Ok, Hfor. reflexivity. }
  assert (Haux : forall k, k ∉ property_list -> properties' !! k = p3 !! k) by exact Hout'.
  split; [| split; [| split; [| split]]].
  - rewrite Haux by (by apply (bool_decide_unpack _)).
    subst p3. by rewrite lookup_insert_eq, fmap_app.
  - rewrite Haux by (by apply (bool_decide_unpack _)).
    subst p3 p2 p1. destruct fname_discs; rewrite !lookup_insert_ne by done;
      by rewrite lookup_insert_eq, fmap_app.
  - rewrite Haux by (by apply (bool_decide_unpack _)).
    subst p3 p2 p1. destruct fname_discs; rewrite !lookup_insert_ne by done.
    + by rewrite lookup_insert_eq, fmap_app.
    + exact Hdist.
  - rewrite Haux by (by apply (bool_decide_unpack _)).
    subst p3 p2 p1. destruct fname_discs; rewrite lookup_insert_ne by done.
    + by rewrite lookup_insert_eq, fmap_app.
    + rewrite lookup_insert_ne by done. exact Hlev.
  - intros name Hin. destruct (Hin' name Hin) as (xs & Hxs & Hlen).
    exists xs. split; [exact Hxs |]. rewrite length_app. simpl. lia.
Qed.

(** An iteration that does not raise is one on a patch with a region. *)
Lemma loop_body_sampled (np_argsort : list Z -> list nat)
    (math_cos math_sin : Q -> Q) (fname_discs : bool) (pre : list Point)
    (pt : Point) (properties : series) (h : heap) (out : list Z) (st' : loop_state) :
  sampled fname_discs pre properties ->
  loop_body np_argsort math_cos math_sin fname_discs pt (properties, h, out) = Ok st' ->
  regionprops (patch pt) ≠ [] /\
  exists (properties' : series) (h' : heap),
    st' = (properties', h', out) /\ sampled fname_discs (pre ++ [pt]) properties'.
Proof.
  intros Hs H.
  assert (Hne : regionprops (patch pt) ≠ []).
  { intros He. rewrite (loop_body_no_region _ _ _ _ _ _ He) in H. discriminate. }
  split; [exact Hne |].
  pose proof H as H'. unfold loop_body in H'.
  apply bind_inv in H' as ([o h1] & Hp & _).
  destruct (properties2d_success _ _ _ _ _ _ _ _ Hne Hp)
    as (r & ratio & area & diameter & major_l & minor_l & size_grid & sq & dice & d
        & _ & _ & _ & _ & _ & Hnew & _).
  unfold new_dict in Hnew. injection Hnew as -> ->.
  destruct (loop_body_region _ _ _ fname_discs pre pt properties h _ out _ Hs Hp)
    as (properties' & h' & Hbody & Hs').
  rewrite Hbody in H. apply Ok_inj in H. subst st'.
  by exists properties', h'.
Qed.

Lemma for_each_sampled (np_argsort : list Z -> list nat)
    (math_cos math_sin : Q -> Q) (fname_discs : bool) (pts pre : list Point)
    (properties : series) (h : heap) (out : list Z) (st' : loop_state) :
  sampled fname_discs pre properties ->
  for_each pts (loop_body np_argsort math_cos math_sin fname_discs)
    (properties, h, out) = Ok st' ->
  (forall pt, pt ∈ pts -> regionprops (patch pt) ≠ []) /\
  exists (properties' : series) (h' : heap),
    st' = (properties', h', out) /\ sampled fname_discs (pre ++ pts) properties'.
Proof.
  revert pre properties h. induction pts as [| pt pts IH]; intros pre properties h Hs H.
  - simpl in H. apply Ok_inj in H. subst st'.
    split; [by intros ? ?%elem_of_nil |].
    exists properties, h. by rewrite app_nil_r.
  - cbn [for_each] in H. apply bind_inv in H as (st1 & Hbody & H).
    destruct (loop_body_sampled _ _ _ _ _ _ _ _ _ _ Hs Hbody)
      as (Hne & properties1 & h1 & -> & Hs1).
    destruct (IH _ _ _ Hs1 H) as (Hall & properties' & h' & -> & Hs').
    split.
    + intros p [-> | Hp]%elem_of_cons; [exact Hne | by apply Hall].
    + exists properties', h'. split; [done |]. by rewrite <- app_assoc in Hs'.
Qed.

(** X11. When the loop over the points of the centerline ends without an
    exception, no warning was printed, every patch had a region, and the
    series are filled point by point: [z_slice] and [incremental_length] list
    the values of the points in order, [distance_from_C1] and
    [vertebral_level] do so with a disc file and stay empty without, and each
    of the nine properties has one float per point. *)
Theorem sampling_loop_series (np_argsort : list Z -> list nat)
    (math_cos math_sin : Q -> Q) (fname_discs : bool) (centerline : Centerline)
    (properties : series) (h : heap) (out : list Z) :
  for_each (points centerline) (loop_body np_argsort math_cos math_sin fname_discs)
    (init_properties, ∅, []) = Ok (properties, h, out) ->
  out = [] /\
  (forall pt, pt ∈ points centerline -> regionprops (patch pt) ≠ []) /\
  sampled fname_discs (points centerline) properties.
Proof.
  intros H.
  destruct (for_each_sampled _ _ _ _ _ [] _ _ _ _ (sampled_init fname_discs) H)
    as (Hall & properties' & h' & Heq & Hs).
  injection Heq as -> -> ->. done.
Qed.

(** ** When [properties2d] returns *)

Lemma sc_region_of_total (np_argsort : list Z -> list nat) (regions : list sk.region) :
  (forall a j, j ∈ np_argsort a <-> (j < length a)%nat) ->
  regions ≠ [] ->
  exists r, sc_region_of np_argsort regions = Ok r.
Proof.
  intros Hsort Hne. unfold sc_region_of, list_last, list_get.
  set (ix := np_argsort (sk.area <$> regions)).
  assert (Hix : ix ≠ []).
  { intros Hnil. assert (H0 : 0%nat ∈ ix).
    { apply Hsort. rewrite length_fmap. destruct regions; [done | simpl; lia]. }
    rewrite Hnil in H0. by apply elem_of_nil in H0. }
  apply last_is_Some in Hix as [i Hi]. rewrite Hi, bind_Ok.
  assert (Hlt : (i < length regions)%nat).
  { rewrite <- (length_fmap sk.area). apply Hsort. fold ix.
    apply last_Some in Hi as [ix' ->]. apply elem_of_app. right. by left. }
  apply lookup_lt_is_Some in Hlt as [r Hr]. rewrite Hr. by exists r.
Qed.

Lemma length_coordinates_grid (axis : list Q) :
  length (coordinates_grid axis) = (length axis * length axis)%nat.
Proof.
  unfold coordinates_grid. generalize axis at 1 3 as cols. intros cols.
  induction axis as [| gx axis IH]; [done |].
  cbn [fmap list_fmap concat]. rewrite length_app, length_fmap.
  cbn [fmap] in IH. rewrite IH. simpl. lia.
Qed.

Lemma resampled_square_total (math_cos math_sin : Q -> Q) (image : Image)
    (x0 y0 orientation size_grid : Q) :
  mgrid_axis size_grid (25 # 100) ≠ [] ->
  exists sq,
    resampled_square math_cos math_sin image x0 y0 orientation size_grid = Ok sq.
Proof.
  intros Hne. unfold resampled_square.
  set (axis := mgrid_axis size_grid (25 # 100)) in *.
  set (coords := _ <$> coordinates_grid axis).
  assert (Hlen : length coords = (length axis * length axis)%nat).
  { unfold coords. by rewrite length_fmap, length_coordinates_grid. }
  unfold map_coordinates. destruct coords as [| c cs] eqn:E.
  { destruct axis; [done | simpl in Hlen; lia]. }
  rewrite bind_Ok. unfold reshape.
  rewrite decide_True by (by rewrite length_fmap). by eexists.
Qed.

Lemma halves_shape (k : nat) (rows : list (list Q)) :
  Forall (fun row => length row = (2 * k)%nat) rows ->
  length <$> (take k <$> rows) = length <$> ((fun row => reverse (drop k row)) <$> rows).
Proof.
  induction 1 as [| row rows Hrow _ IH]; [done |].
  cbn [fmap list_fmap]. cbn [fmap] in IH. rewrite IH. f_equal.
  rewrite length_take, length_reverse, length_drop. lia.
Qed.

(** The two halves have the same shape when the side is even. *)
Lemma dice_symmetry_total (sq : list (list Q)) :
  Nat.Even (length sq) ->
  Forall (fun row => length row = length sq) sq ->
  exists dice, dice_symmetry sq = Ok dice.
Proof.
  intros [k Hk] Hrows. unfold dice_symmetry, mask_eq1, left_image, right_image, size_half.
  assert (Hh : (length sq / 2)%nat = k).
  { rewrite Hk, (Nat.mul_comm 2 k). by apply Nat.div_mul. }
  rewrite Hh. rewrite Hk in Hrows.
  rewrite bool_decide_true by (by apply halves_shape). by eexists.
Qed.

Lemma mgrid_axis_positive (size_grid : Q) :
  (0 < size_grid)%Q -> mgrid_axis size_grid (25 # 100) ≠ [].
Proof.
  intros Hpos Hnil. apply (f_equal length) in Hnil.
  unfold mgrid_axis in Hnil. rewrite length_fmap, length_seq in Hnil. simpl in Hnil.
  set (x := ((size_grid - - size_grid) / (25 # 100))%Q) in *.
  assert (Hx : (0 < x)%Q).
  { unfold x. apply Qlt_shift_div_l; [reflexivity | lra]. }
  pose proof (Qle_ceiling x) as Hc.
  assert (Hz : (inject_Z 0 < inject_Z (Qceiling x))%Q).
  { eapply Qlt_le_trans; [exact Hx | exact Hc]. }
  rewrite <- Zlt_Qlt in Hz. lia.
Qed.

(** The resampling and the score go through on a grid that is not empty and
    has an even number of points along each axis. *)
Lemma square_and_dice_total (math_cos math_sin : Q -> Q) (image : Image)
    (x0 y0 orientation size_grid : Q) :
  (0 < size_grid)%Q ->
  Nat.Even (length (mgrid_axis size_grid (25 # 100))) ->
  exists sq dice,
    resampled_square math_cos math_sin image x0 y0 orientation size_grid = Ok sq /\
    dice_symmetry sq = Ok dice.
Proof.
  intros Hpos Heven.
  destruct (resampled_square_total math_cos math_sin image x0 y0 orientation
              size_grid (mgrid_axis_positive size_grid Hpos)) as [sq Hsq].
  destruct (resampled_square_shape _ _ _ _ _ _ _ _ Hsq) as [Hlen Hrows].
  destruct (dice_symmetry_total sq) as [dice Hdice];
    [by rewrite Hlen | exact Hrows |].
  by exists sq, dice.
Qed.

(** In the pipeline, where the resolution is 0.5. *)
Lemma properties2d_pipeline (np_argsort : list Z -> list nat)
    (math_cos math_sin : Q -> Q) (image : Image) (h : heap) :
  (forall a j, j ∈ np_argsort a <-> (j < length a)%nat) ->
  regionprops image ≠ [] ->
  exists (l : loc) (h1 : heap),
    properties2d np_argsort math_cos math_sin image
      (Some (resolution, resolution)) h = Ok (PyDict l, h1).
Proof.
  intros Hsort Hne.
  destruct (sc_region_of_total np_argsort (regionprops image) Hsort Hne) as [r Hr].
  destruct (square_and_dice_total math_cos math_sin image (sk.centroid r).2
              (sk.centroid r).1 (sk.orientation r) (8 / resolution))
    as (sq & dice & Hsq & Hdice).
  { reflexivity. }
  { destruct pipeline_square_side as [_ ->]. by exists 64%nat. }
  destruct (properties2d_resolution np_argsort math_cos math_sin image
              resolution resolution h r sq dice Hne Hr) as (d & Hp & _);
    [discriminate | exact Hsq | exact Hdice |].
  eexists _, _. exact Hp.
Qed.

(** X12. With a resolution, [properties2d] returns a dictionary for every
    patch that has a region, provided [np.argsort] returns the indices of its
    argument, the first component of the resolution is positive, and the grid
    has an even number of points along each axis, which is the case for the
    resolution 0.5 of the pipeline (128 points). *)
Theorem properties2d_total (np_argsort : list Z -> list nat)
    (math_cos math_sin : Q -> Q) (image : Image) (r0 r1 : Q) (h : heap) :
  (forall a j, j ∈ np_argsort a <-> (j < length a)%nat) ->
  regionprops image ≠ [] ->
  (0 < r0)%Q ->
  Nat.Even (length (mgrid_axis (8 / r0) (25 # 100))) ->
  exists (l : loc) (h1 : heap),
    properties2d np_argsort math_cos math_sin image (Some (r0, r1)) h
      = Ok (PyDict l, h1).
Proof.
  intros Hsort Hne Hr0 Heven.
  destruct (sc_region_of_total np_argsort (regionprops image) Hsort Hne) as [r Hr].
  destruct (square_and_dice_total math_cos math_sin image (sk.centroid r).2
              (sk.centroid r).1 (sk.orientation r) (8 / r0))
    as (sq & dice & Hsq & Hdice).
  { apply Qlt_shift_div_l; [exact Hr0 | lra]. }
  { exact Heven. }
  destruct (properties2d_resolution np_argsort math_cos math_sin image r0 r1 h
              r sq dice Hne Hr) as (d & Hp & _);
    [lra | exact Hsq | exact Hdice |].
  eexists _, _. exact Hp.
Qed.

Lemma insertion_argsort_indices (a : list Z) (j : nat) :
  j ∈ insertion_argsort a <-> (j < length a)%nat.
Proof. by destruct (insertion_argsort_stable a) as [H _]. Qed.

Lemma properties2d_total_witness :
  exists (l : loc) (h1 : heap),
    properties2d insertion_argsort cos45 sin45 block_image
      (Some (resolution, resolution)) ∅ = Ok (PyDict l, h1).
Proof.
  apply (properties2d_total insertion_argsort cos45 sin45 block_image
           resolution resolution ∅).
  - apply insertion_argsort_indices.
  - discriminate.
  - reflexivity.
  - destruct pipeline_square_side as [_ ->]. by exists 64%nat.
Defined.

(** ** The whole function *)

Lemma for_each_progress (np_argsort : list Z -> list nat)
    (math_cos math_sin : Q -> Q) (fname_discs : bool) (pts pre : list Point)
    (properties : series) (h : heap) (out : list Z) :
  (forall a j, j ∈ np_argsort a <-> (j < length a)%nat) ->
  sampled fname_discs pre properties ->
  (forall pt, pt ∈ pts -> regionprops (patch pt) ≠ []) ->
  exists (properties' : series) (h' : heap),
    for_each pts (loop_body np_argsort math_cos math_sin fname_discs)
      (properties, h, out) = Ok (properties', h', out) /\
    sampled fname_discs (pre ++ pts) properties'.
Proof.
  intros Hsort. revert pre properties h.
  induction pts as [| pt pts IH]; intros pre properties h Hs Hall.
  { exists properties, h. by rewrite app_nil_r. }
  destruct (properties2d_pipeline np_argsort math_cos math_sin (patch pt) h Hsort)
    as (l & h1 & Hp).
  { apply Hall. by left. }
  destruct (loop_body_region _ _ _ fname_discs pre pt properties h h1 out l Hs Hp)
    as (properties1 & h2 & Hbody & Hs1).
  destruct (IH (pre ++ [pt]) properties1 h2 Hs1) as (properties' & h' & Hfor & Hs').
  { intros p Hp'. apply Hall. by right. }
  exists properties', h'. split.
  - cbn [for_each]. rewrite Hbody, bind_Ok. exact Hfor.
  - by rewrite <- app_assoc in Hs'.
Qed.

Lemma sampling_loop_series_witness :
  exists (properties : series) (h : heap),
    for_each (points sample_centerline)
      (loop_body insertion_argsort cos45 sin45 true)
      (init_properties, ∅, []) = Ok (properties, h, []) /\
    properties !! "z_slice" = Some [VInt 5; VInt 5; VInt 6] /\
    properties !! "vertebral_level" = Some [VInt 0; VInt 0; VInt 0].
Proof.
  destruct (for_each_progress insertion_argsort cos45 sin45 true
              (points sample_centerline) [] init_properties ∅ [])
    as (properties & h & Hfor & _).
  - apply insertion_argsort_indices.
  - apply sampled_init.
  - intros pt Hin. apply list_elem_of_lookup_1 in Hin as [i Hi].
    destruct i as [| [| [| i]]]; try (injection Hi as <-; discriminate).
    discriminate Hi.
  - destruct (sampling_loop_series _ _ _ _ _ _ _ _ Hfor) as (_ & _ & Hz & _ & _ & Hlev & _).
    exists properties, h. split; [exact Hfor |]. split; [exact Hz | exact Hlev].
Defined.

Lemma z_slice_labels (fname_discs : bool) (pts : list Point) (properties : series) :
  sampled fname_discs pts properties ->
  properties !! "z_slice" = Some (VInt <$> (z_pix <$> pts)).
Proof.
  intros (Hz & _). rewrite Hz. f_equal.
  apply (list_fmap_compose z_pix VInt).
Qed.

Lemma sampled_series_length (fname_discs : bool) (pts : list Point)
    (properties : series) (name : string) :
  sampled fname_discs pts properties ->
  name ∈ property_list ->
  exists xs, properties !! name = Some (VFloat <$> xs) /\
             length xs = length (z_pix <$> pts).
Proof.
  intros (_ & _ & _ & _ & Hser) Hin. destruct (Hser name Hin) as (xs & Hxs & Hlen).
  exists xs. by rewrite length_fmap.
Qed.

Lemma smooth_skipped (hann_coeff : nat -> nat -> Q) (properties : series)
    (smooth_factor : Q) (centerline : Centerline) :
  (smooth_factor == 0)%Q ->
  smooth hann_coeff properties smooth_factor centerline = Ok properties.
Proof.
  intros Hsf. unfold smooth. apply Qeq_bool_iff in Hsf. by rewrite Hsf.
Qed.

(** With [verbose] other than 2 the display is skipped. *)
Lemma compute_verbose_default (np_argsort : list Z -> list nat)
    (math_cos math_sin : Q -> Q) (hann_coeff : nat -> nat -> Q)
    (plt_subplots : nat -> result unit)
    (plt_plot : nat -> list value -> list value -> result unit)
    (plt_show : bool -> result unit) (verbose : Z)
    (centerline : Centerline) (fname_discs : bool) (smooth_factor : Q) :
  verbose ≠ 2%Z ->
  compute_properties_along_centerline_verbose np_argsort math_cos math_sin
    hann_coeff plt_subplots plt_plot plt_show verbose centerline fname_discs
    smooth_factor
  = compute_properties_along_centerline np_argsort math_cos math_sin hann_coeff
      centerline fname_discs smooth_factor.
Proof.
  intros Hv. apply Z.eqb_neq in Hv.
  unfold compute_properties_along_centerline_verbose,
    compute_properties_along_centerline, finalize.
  rewrite Hv.
  destruct (for_each _ _ _) as [[[properties h] out] | e]; [| done].
  rewrite !bind_Ok. cbv beta iota.
  destruct (smooth _ _ _ _) as [properties' | e]; [| done].
  rewrite !bind_Ok.
  by destruct (series_get _ _) as [zs | e].
Qed.

(** X13. With [verbose] other than 2, without smoothing, and with an
    [np.argsort] that returns the indices of its argument, the function
    returns exactly when every patch of the centerline has a region (for an
    empty centerline too). What it returns is then determined by the series
    of the loop: no warning, and for each property the list, over the slices
    in the order in which they are first seen, of the mean of the values
    measured at the points of the slice. *)
Theorem returns_iff_regions (np_argsort : list Z -> list nat)
    (math_cos math_sin : Q -> Q) (hann_coeff : nat -> nat -> Q)
    (plt_subplots : nat -> result unit)
    (plt_plot : nat -> list value -> list value -> result unit)
    (plt_show : bool -> result unit) (verbose : Z)
    (centerline : Centerline) (fname_discs : bool) (smooth_factor : Q) :
  (forall a j, j ∈ np_argsort a <-> (j < length a)%nat) ->
  (smooth_factor == 0)%Q ->
  verbose ≠ 2%Z ->
  ((forall pt, pt ∈ points centerline -> regionprops (patch pt) ≠ []) <->
   exists averaged_shape,
     compute_properties_along_centerline_verbose np_argsort math_cos math_sin
       hann_coeff plt_subplots plt_plot plt_show verbose centerline fname_discs
       smooth_factor = Ok (property_list, averaged_shape, [])) /\
  forall names averaged_shape out,
    compute_properties_along_centerline_verbose np_argsort math_cos math_sin
      hann_coeff plt_subplots plt_plot plt_show verbose centerline fname_discs
      smooth_factor = Ok (names, averaged_shape, out) ->
    out = [] /\
    exists (properties : series) (h : heap),
      for_each (points centerline)
        (loop_body np_argsort math_cos math_sin fname_discs)
        (init_properties, ∅, []) = Ok (properties, h, []) /\
      forall name xs, name ∈ property_list ->
        properties !! name = Some (VFloat <$> xs) ->
        od_get averaged_shape name
        = Some ((fun label =>
                   arithmetic_mean
                     (slice_values (z_pix <$> points centerline) xs label))
                  <$> first_seen (z_pix <$> points centerline)).
Proof.
  intros Hsort Hsf Hv.
  rewrite (compute_verbose_default _ _ _ _ plt_subplots plt_plot plt_show verbose
             centerline fname_discs smooth_factor Hv).
  assert (Hfin : forall properties,
             sampled fname_discs (points centerline) properties ->
             exists od,
               finalize hann_coeff properties smooth_factor centerline = Ok od /\
               forall name xs, name ∈ property_list ->
                 properties !! name = Some (VFloat <$> xs) ->
                 od_get od name
                 = Some ((fun label =>
                            arithmetic_mean
                              (slice_values (z_pix <$> points centerline) xs label))
                           <$> first_seen (z_pix <$> points centerline))).
  { intros properties Hs. pose proof (z_slice_labels _ _ _ Hs) as Hz.
    destruct (average_spec properties (z_pix <$> points centerline)
                (first_seen (z_pix <$> points centerline)) Hz)
      as (od & Hav & _ & Hget).
    { intros name Hin. by eapply sampled_series_length. }
    exists od. split; [| exact Hget].
    unfold finalize. rewrite (smooth_skipped _ _ _ _ Hsf), bind_Ok.
    rewrite (series_get_Some _ _ _ Hz), bind_Ok.
    by rewrite sorting_values_of_first_seen. }
  split; [split |].
  - intros Hall.
    destruct (for_each_progress np_argsort math_cos math_sin fname_discs
                (points centerline) [] init_properties ∅ [] Hsort
                (sampled_init fname_discs) Hall)
      as (properties & h & Hfor & Hs).
    destruct (Hfin properties Hs) as (od & Hod & _).
    exists od. unfold compute_properties_along_centerline.
    rewrite Hfor, bind_Ok. cbv beta iota. by rewrite Hod.
  - intros (od & H). unfold compute_properties_along_centerline in H.
    apply bind_inv in H as ([[properties h] out] & Hfor & _).
    by destruct (for_each_sampled _ _ _ _ _ [] _ _ _ _ (sampled_init fname_discs) Hfor)
      as (Hall & _).
  - intros names od out H. unfold compute_properties_along_centerline in H.
    apply bind_inv in H as ([[properties h] out'] & Hfor & H).
    destruct (for_each_sampled _ _ _ _ _ [] _ _ _ _ (sampled_init fname_discs) Hfor)
      as (_ & properties' & h' & Heq & Hs).
    injection Heq as <- <- ->.
    cbv beta iota in H. apply bind_inv in H as (od' & Hod & H).
    injection H as <- <- <-. split; [done |].
    exists properties, h. split; [exact Hfor |].
    destruct (Hfin properties Hs) as (od & Hod' & Hget).
    rewrite Hod in Hod'. apply Ok_inj in Hod'. by subst od.
Qed.

Lemma sample_centerline_regions (pt : Point) :
  pt ∈ points sample_centerline -> regionprops (patch pt) ≠ [].
Proof.
  intros Hin. apply list_elem_of_lookup_1 in Hin as [i Hi].
  destruct i as [| [| [| i]]]; try (injection Hi as <-; discriminate).
  discriminate Hi.
Qed.

Lemma returns_iff_regions_witness :
  exists averaged_shape,
    compute_properties_along_centerline_verbose insertion_argsort cos45 sin45
      flat_coeff sample_subplots sample_plot sample_show 1 sample_centerline
      false 0 = Ok (property_list, averaged_shape, []).
Proof.
  destruct (returns_iff_regions insertion_argsort cos45 sin45 flat_coeff
              sample_subplots sample_plot sample_show 1 sample_centerline false 0)
    as [[Hret _] _].
  - apply insertion_argsort_indices.
  - reflexivity.
  - discriminate.
  - apply Hret. apply sample_centerline_regions.
Defined.

(** ** Smoothing in the pipeline *)

Lemma smooth_values_VFloat (window : list Q) (xs : list float) :
  window ≠ [] ->
  exists ys, smooth_values window (VFloat <$> xs) = Ok (VFloat <$> ys) /\
             length ys = length xs.
Proof.
  intros Hw. unfold smooth_values.
  rewrite mapM_as_float_VFloat, bind_Ok.
  destruct (convolve_same_length xs window Hw) as (c & Hc & Hlen).
  rewrite Hc, bind_Ok.
  exists ((fun x => np_div x (Finite (Qsum window))) <$> c). split.
  - cbn [mret result_ret]. f_equal.
    apply (list_fmap_compose (fun x => np_div x (Finite (Qsum window))) VFloat).
  - by rewrite length_fmap.
Qed.

(** Smoothing keeps the shape of the series. *)
Lemma smooth_sampled (hann_coeff : nat -> nat -> Q) (fname_discs : bool)
    (pts : list Point) (properties : series) (smooth_factor : Q)
    (centerline : Centerline) :
  sampled fname_discs pts properties ->
  (smooth_factor == 0)%Q \/
    (exists n, window_length smooth_factor centerline = Ok (S n)) ->
  exists properties' : series,
    smooth hann_coeff properties smooth_factor centerline = Ok properties' /\
    sampled fname_discs pts properties'.
Proof.
  intros Hs Hsf.
  destruct (Qeq_bool smooth_factor 0) eqn:E.
  { apply Qeq_bool_iff in E. exists properties.
    split; [by apply smooth_skipped | exact Hs]. }
  destruct Hsf as [Hsf | [n Hn]]; [apply Qeq_bool_iff in Hsf; congruence |].
  set (window := hann_coeff (S n) <$> seq 0 (S n)).
  assert (Hw : window ≠ []) by done.
  destruct (for_each_update (smooth_values window) property_list properties
              NoDup_property_list) as (p' & Hp' & Hin & Hout).
  { intros name Hname.
    destruct (sampled_series_length _ _ _ name Hs Hname) as (xs & Hxs & _).
    destruct (smooth_values_VFloat window xs Hw) as (ys & Hys & _).
    by exists (VFloat <$> xs), (VFloat <$> ys). }
  exists p'. split.
  { unfold smooth. rewrite E. cbn [negb].
    rewrite (hann_length_eq hann_coeff _ (S n) Hn), bind_Ok. exact Hp'. }
  destruct Hs as (Hz & Hinc & Hdist & Hlev & Hser).
  split; [| split; [| split; [| split]]];
    try (rewrite Hout by (by apply (bool_decide_unpack _)); assumption).
  intros name Hname. destruct (Hser name Hname) as (xs & Hxs & Hlen).
  destruct (Hin name _ Hname Hxs) as (vs' & Hsm & Hvs').
  destruct (smooth_values_VFloat window xs Hw) as (ys & Hys & Hlen').
  rewrite Hys in Hsm. apply Ok_inj in Hsm. subst vs'.
  exists ys. split; [exact Hvs' | by rewrite Hlen'].
Qed.

(** X14. With [verbose] other than 2 and a smoothing factor other than 0
    whose window is not empty, the function still returns for a centerline
    (of at least one point) whose patches all have a region: no warning, the
    nine names in order, and for each of them one value per slice, the slices
    counted as they are first seen. Smoothing changes the values, not the
    shape of the result. *)
Theorem returns_with_smoothing (np_argsort : list Z -> list nat)
    (math_cos math_sin : Q -> Q) (hann_coeff : nat -> nat -> Q)
    (plt_subplots : nat -> result unit)
    (plt_plot : nat -> list value -> list value -> result unit)
    (plt_show : bool -> result unit) (verbose : Z)
    (centerline : Centerline) (fname_discs : bool) (smooth_factor : Q) (n : nat) :
  (forall a j, j ∈ np_argsort a <-> (j < length a)%nat) ->
  points centerline ≠ [] ->
  (forall pt, pt ∈ points centerline -> regionprops (patch pt) ≠ []) ->
  ~ (smooth_factor == 0)%Q ->
  window_length smooth_factor centerline = Ok n ->
  n ≠ 0%nat ->
  verbose ≠ 2%Z ->
  exists averaged_shape,
    compute_properties_along_centerline_verbose np_argsort math_cos math_sin
      hann_coeff plt_subplots plt_plot plt_show verbose centerline fname_discs
      smooth_factor = Ok (property_list, averaged_shape, []) /\
    averaged_shape.*1 = property_list /\
    forall name, name ∈ property_list ->
      exists vs, od_get averaged_shape name = Some vs /\
                 length vs = length (first_seen (z_pix <$> points centerline)).
Proof.
  intros Hsort _ Hall Hsf Hn Hn0 Hv.
  rewrite (compute_verbose_default _ _ _ _ plt_subplots plt_plot plt_show verbose
             centerline fname_discs smooth_factor Hv).
  destruct (for_each_progress np_argsort math_cos math_sin fname_discs
              (points centerline) [] init_properties ∅ [] Hsort
              (sampled_init fname_discs) Hall)
    as (properties & h & Hfor & Hs).
  cbn [app] in Hs.
  destruct (smooth_sampled hann_coeff fname_discs (points centerline) properties
              smooth_factor centerline Hs) as (p' & Hsmooth & Hs').
  { right. destruct n as [| n]; [done | by exists n]. }
  pose proof (z_slice_labels _ _ _ Hs') as Hz.
  destruct (average_spec p' (z_pix <$> points centerline)
              (first_seen (z_pix <$> points centerline)) Hz)
    as (od & Hav & Hkeys & Hget).
  { intros name Hname. by eapply sampled_series_length. }
  exists od. split; [| split; [exact Hkeys |]].
  - unfold compute_properties_along_centerline.
    rewrite Hfor, bind_Ok. cbv beta iota.
    unfold finalize. rewrite Hsmooth, bind_Ok.
    rewrite (series_get_Some _ _ _ Hz), bind_Ok.
    by rewrite sorting_values_of_first_seen, Hav.
  - intros name Hname.
    destruct (sampled_series_length _ _ _ name Hs' Hname) as (ys & Hys & _).
    eexists. split; [exact (Hget name ys Hname Hys) |]. by rewrite length_fmap.
Qed.

Lemma returns_with_smoothing_witness :
  exists averaged_shape,
    compute_properties_along_centerline_verbose insertion_argsort cos45 sin45
      flat_coeff sample_subplots sample_plot sample_show 1 sample_centerline
      false 2 = Ok (property_list, averaged_shape, []) /\
    exists vs, od_get averaged_shape "symmetry" = Some vs /\ length vs = 2%nat.
Proof.
  destruct (returns_with_smoothing insertion_argsort cos45 sin45 flat_coeff
              sample_subplots sample_plot sample_show 1 sample_centerline
              false 2 2) as (od & Hret & _ & Hlen).
  - apply insertion_argsort_indices.
  - discriminate.
  - apply sample_centerline_regions.
  - discriminate.
  - reflexivity.
  - discriminate.
  - discriminate.
  - exists od. split; [exact Hret |]. apply Hlen.
    by apply (bool_decide_unpack _).
Defined.

Lemma for_each_cons_raise {A S} (a : A) (l : list A) (body : A -> S -> result S)
    (s : S) (e : exn) :
  body a s = Raise e -> for_each (a :: l) body s = Raise e.
Proof. intros H. cbn [for_each]. by rewrite H. Qed.

(** X15. A smoothing factor other than 0 whose window cannot be built, or is
    empty (a factor below the mean distance between the points, or a
    centerline without [progressive_length]), makes the function raise
    [ValueError] once the loop over the points has gone through. *)
Theorem smoothing_window_error (np_argsort : list Z -> list nat)
    (math_cos math_sin : Q -> Q) (hann_coeff : nat -> nat -> Q)
    (centerline : Centerline) (fname_discs : bool) (smooth_factor : Q) :
  (forall a j, j ∈ np_argsort a <-> (j < length a)%nat) ->
  (forall pt, pt ∈ points centerline -> regionprops (patch pt) ≠ []) ->
  ~ (smooth_factor == 0)%Q ->
  (forall n, window_length smooth_factor centerline ≠ Ok (S n)) ->
  compute_properties_along_centerline np_argsort math_cos math_sin hann_coeff
    centerline fname_discs smooth_factor = Raise ValueError.
Proof.
  intros Hsort Hall Hsf Hwin.
  destruct (for_each_progress np_argsort math_cos math_sin fname_discs
              (points centerline) [] init_properties ∅ [] Hsort
              (sampled_init fname_discs) Hall)
    as (properties & h & Hfor & Hs).
  cbn [app] in Hs.
  unfold compute_properties_along_centerline.
  rewrite Hfor, bind_Ok. cbv beta iota.
  assert (Hsmooth : smooth hann_coeff properties smooth_factor centerline
                    = Raise ValueError); [| unfold finalize; by rewrite Hsmooth].
  unfold smooth.
  assert (E : Qeq_bool smooth_factor 0 = false).
  { apply not_true_iff_false. by rewrite Qeq_bool_iff. }
  rewrite E. cbn [negb].
  unfold window_length in Hwin. unfold hann.
  destruct (hann_length _) as [[| n] | e] eqn:Hn.
  - rewrite bind_Ok. cbn [seq fmap list_fmap mret result_ret].
    destruct (sampled_series_length _ _ _ "area" Hs) as (xs & Hxs & _);
      [by apply (bool_decide_unpack _) |].
    unfold property_list. apply for_each_cons_raise.
    rewrite (series_get_Some _ _ _ Hxs), bind_Ok.
    unfold smooth_values. by rewrite mapM_as_float_VFloat.
  - by destruct (Hwin n).
  - unfold hann_length in Hn. destruct (np_div _ _) as [m |].
    + destruct (Qltb m 1); discriminate.
    + by injection Hn as <-.
Qed.

Lemma smoothing_window_error_witness :
  compute_properties_along_centerline insertion_argsort cos45 sin45 flat_coeff
    sample_centerline false (1 # 2) = Raise ValueError.
Proof.
  apply smoothing_window_error.
  - apply insertion_argsort_indices.
  - intros pt Hin. apply list_elem_of_lookup_1 in Hin as [i Hi].
    destruct i as [| [| [| i]]]; try (injection Hi as <-; discriminate).
    discriminate Hi.
  - discriminate.
  - intros n. vm_compute. discriminate.
Defined.

(** X17. With [verbose == 2] and no disc file the display plots every
    property against [distance_from_C1] (lines 273-275 choose
    [incremental_length] with a disc file only), a series that the loop
    fills with a disc file only: for a centerline of at least one point
    whose patches all have a region, the first [plot] gets an empty abscissa
    and as many ordinates as there are points. With a matplotlib that
    refuses sequences of different lengths the function raises [ValueError]
    instead of returning. *)
Theorem display_without_discs_raises (np_argsort : list Z -> list nat)
    (math_cos math_sin : Q -> Q) (hann_coeff : nat -> nat -> Q)
    (plt_subplots : nat -> result unit)
    (plt_plot : nat -> list value -> list value -> result unit)
    (plt_show : bool -> result unit)
    (centerline : Centerline) (smooth_factor : Q) :
  (forall a j, j ∈ np_argsort a <-> (j < length a)%nat) ->
  points centerline ≠ [] ->
  (forall pt, pt ∈ points centerline -> regionprops (patch pt) ≠ []) ->
  (smooth_factor == 0)%Q \/
    (exists n, window_length smooth_factor centerline = Ok (S n)) ->
  plt_subplots (length property_list) = Ok tt ->
  (forall k x y, length x ≠ length y -> plt_plot k x y = Raise ValueError) ->
  compute_properties_along_centerline_verbose np_argsort math_cos math_sin
    hann_coeff plt_subplots plt_plot plt_show 2 centerline false smooth_factor
  = Raise ValueError.
Proof.
  intros Hsort Hne Hall Hsf Hsub Hplot.
  destruct (for_each_progress np_argsort math_cos math_sin false
              (points centerline) [] init_properties ∅ [] Hsort
              (sampled_init false) Hall)
    as (properties & h & Hfor & Hs).
  cbn [app] in Hs.
  destruct (smooth_sampled hann_coeff false (points centerline) properties
              smooth_factor centerline Hs Hsf) as (p' & Hsmooth & Hs').
  unfold compute_properties_along_centerline_verbose.
  rewrite Hfor, bind_Ok. cbv beta iota. rewrite Hsmooth, bind_Ok.
  change (2 =? 2)%Z with true. cbv iota.
  assert (Hdisplay : display plt_subplots plt_plot plt_show false p'
                     = Raise ValueError); [| by rewrite Hdisplay].
  unfold display. rewrite Hsub, bind_Ok.
  assert (Hloop : for_each (enumerate property_list)
            (fun '(k, property_name) (_ : unit) =>
               x ← series_get p' "distance_from_C1";
               y ← series_get p' property_name;
               plt_plot k x y) tt = Raise ValueError); [| by rewrite Hloop].
  destruct Hs' as (_ & _ & Hdist & _ & Hser).
  destruct (Hser "area") as (ys & Hys & Hlen); [by apply (bool_decide_unpack _) |].
  unfold property_list, enumerate. cbn [length seq zip zip_with].
  apply for_each_cons_raise.
  rewrite (series_get_Some _ _ _ Hdist), bind_Ok.
  rewrite (series_get_Some _ _ _ Hys), bind_Ok.
  apply Hplot. rewrite length_fmap, Hlen. simpl.
  destruct (points centerline); [done | simpl; lia].
Qed.

Lemma display_without_discs_raises_witness :
  compute_properties_along_centerline_verbose insertion_argsort cos45 sin45
    flat_coeff sample_subplots sample_plot sample_show 2 sample_centerline
    false 0 = Raise ValueError.
Proof.
  apply display_without_discs_raises.
  - apply insertion_argsort_indices.
  - discriminate.
  - apply sample_centerline_regions.
  - left. reflexivity.
  - reflexivity.
  - intros k x y Hxy. unfold sample_plot. by rewrite decide_False.
Defined.

(** ** Averaging *)

Lemma slice_values_nonempty (z : list Z) (xs : list float) (label : Z) :
  length xs = length z -> label ∈ z -> slice_values z xs label ≠ [].
Proof.
  revert xs. induction z as [| zi z IH]; intros xs Hlen Hin.
  { by apply elem_of_nil in Hin. }
  destruct xs as [| x xs]; [discriminate |]. injection Hlen as Hlen.
  cbn [slice_values]. destruct (decide (zi = label)) as [-> | Hne]; [done |].
  apply elem_of_cons in Hin as [-> | Hin]; [done |]. by apply IH.
Qed.

Lemma slice_values_elem (z : list Z) (xs : list float) (label : Z) (x : float) :
  x ∈ slice_values z xs label -> x ∈ xs.
Proof.
  revert xs. induction z as [| zi z IH]; intros xs Hin.
  { by apply elem_of_nil in Hin. }
  destruct xs as [| x' xs]; [by apply elem_of_nil in Hin |].
  cbn [slice_values] in Hin. destruct (decide (zi = label)).
  - apply elem_of_cons in Hin as [-> | Hin]; [by left | right; by apply IH].
  - right. by apply IH.
Qed.

(** X16. No slice is averaged over an empty list: for every label of
    [sorting_values] the list comprehension of lines 305-306 selects at least
    one sample, and nothing but samples of the series, so that [np.mean] is
    never applied to an empty list. *)
Theorem averaged_slices_nonempty (properties : series) (z : list Z)
    (name : string) (xs : list float) (label : value) :
  properties !! "z_slice" = Some (VInt <$> z) ->
  properties !! name = Some (VFloat <$> xs) ->
  length xs = length z ->
  label ∈ sorting_values_of (VInt <$> z) ->
  exists items : list value,
    items_of_label (enumerate (VFloat <$> xs)) (VInt <$> z) label = Ok items /\
    items ≠ [] /\
    (forall v, v ∈ items -> v ∈ VFloat <$> xs) /\
    mean_of_label properties name label = np_mean items.
Proof.
  intros Hz Hxs Hlen Hlabel.
  rewrite sorting_values_of_first_seen in Hlabel.
  apply list_elem_of_fmap in Hlabel as (lab & -> & Hlab).
  apply (proj1 (elem_of_first_seen z lab)) in Hlab.
  assert (Hitems : items_of_label (enumerate (VFloat <$> xs)) (VInt <$> z) (VInt lab)
                   = Ok (VFloat <$> slice_values z xs lab)).
  { unfold enumerate. rewrite length_fmap.
    apply (items_of_label_spec [] z xs lab). lia. }
  exists (VFloat <$> slice_values z xs lab). split; [exact Hitems |]. split.
  - intros Hnil. apply fmap_nil_inv in Hnil.
    by apply (slice_values_nonempty z xs lab Hlen Hlab).
  - split.
    + intros v Hv. apply list_elem_of_fmap in Hv as (x & -> & Hx).
      apply list_elem_of_fmap. exists x. split; [done |].
      by eapply slice_values_elem.
    + unfold mean_of_label.
      rewrite (series_get_Some _ _ _ Hxs), bind_Ok.
      rewrite (series_get_Some _ _ _ Hz), bind_Ok.
      by rewrite Hitems.
Qed.

Lemma averaged_slices_nonempty_witness :
  exists items : list value,
    items_of_label (enumerate (VFloat <$> [Finite 1; Finite 2; Finite 3]))
      (VInt <$> [5; 5; 6]%Z) (VInt 5) = Ok items /\
    items ≠ [].
Proof.
  destruct (averaged_slices_nonempty
              (sample_series [5; 5; 6]%Z [Finite 1; Finite 2; Finite 3])
              [5; 5; 6]%Z "symmetry" [Finite 1; Finite 2; Finite 3] (VInt 5))
    as (items & Hitems & Hne & _).
  - reflexivity.
  - reflexivity.
  - reflexivity.
  - vm_compute. by left.
  - exists items. split; [exact Hitems | exact Hne].
Defined.
